(** * parallel-ssh: the ssh2-python based single-host client

    A shallow embedding of [pssh/ssh2_client.py] (class [SSHClient]) and the
    properties of its transport establisher, operation pump, authentication
    chain, command composition, output demultiplexer and SFTP transfer. *)

From Equations Require Import Equations.
From Stdlib Require Import ZArith List Lia Bool Arith.
From Stdlib Require Import Strings.String Strings.Ascii Strings.Byte.
From Stdlib Require Import Numbers.DecimalString.
Import ListNotations.
Local Open Scope Z_scope.

Set Implicit Arguments.

(** A value together with the equation that names it, for definitions by
    cases that recur on a part of the value. *)
Definition inspect {A : Type} (x : A) : {y : A | x = y} := exist _ x eq_refl.

(** ** Python built-ins used by the client *)

Module Py.

(** [bytes] objects (Python 3) and [str] used as byte strings (Python 2). *)
Definition bytes := list byte.

Definition b (s : string) : bytes := list_byte_of_string s.

Definition len {A} (s : list A) : Z := Z.of_nat (List.length s).

(** Index normalisation of a slice bound: negative bounds count from the
    end, and every bound is clipped to [0, len]. *)
Definition clip (n i : Z) : Z :=
  if i <? 0 then Z.max 0 (i + n) else Z.min i n.

(** [s[lo:hi]] *)
Definition slice {A} (s : list A) (lo hi : Z) : list A :=
  let lo' := clip (len s) lo in
  let hi' := clip (len s) hi in
  firstn (Z.to_nat (hi' - lo')) (skipn (Z.to_nat lo') s).

(** [s[:hi]] *)
Definition slice_to {A} (s : list A) (hi : Z) : list A := slice s 0 hi.

(** [s[lo:]] *)
Definition slice_from {A} (s : list A) (lo : Z) : list A := slice s lo (len s).

Fixpoint startswith (s sub : bytes) {struct sub} : bool :=
  match sub, s with
  | [], _ => true
  | _ :: _, [] => false
  | x :: sub', y :: s' => Byte.eqb x y && startswith s' sub'
  end.

(** Lowest offset at which [sub] occurs in [s], reported relative to the
    index [i] of the head of [s]; [-1] when there is none. *)
Fixpoint find_at (s sub : bytes) (i : Z) : Z :=
  if startswith s sub then i
  else match s with
       | [] => -1
       | _ :: s' => find_at s' sub (i + 1)
       end.

(** [s.find(sub, start)] *)
Definition find (s sub : bytes) (start : Z) : Z :=
  if len s <? start then -1
  else let st := clip (len s) start in
       find_at (skipn (Z.to_nat st) s) sub st.

(** ASCII whitespace, as removed by [bytes.strip()]. *)
Definition isspace (c : byte) : bool :=
  match c with
  | x09 | x0a | x0b | x0c | x0d | x20 => true
  | _ => false
  end.

Fixpoint lstrip (s : bytes) : bytes :=
  match s with
  | c :: s' => if isspace c then lstrip s' else s
  | [] => []
  end.

Definition rstrip (s : bytes) : bytes := rev (lstrip (rev s)).

(** [s.strip()] *)
Definition strip (s : bytes) : bytes := rstrip (lstrip s).

(** [s.split('/')] *)
Fixpoint split (s : string) : list string :=
  match s with
  | EmptyString => [EmptyString]
  | String c s' =>
      if Ascii.eqb c "/" then EmptyString :: split s'
      else match split s' with
           | h :: t => String c h :: t
           | [] => [String c EmptyString]
           end
  end.

(** [s.split('/', 1)]: the first element, and the second when the result
    has two. *)
Fixpoint split_1 (s : string) : string * option string :=
  match s with
  | EmptyString => (EmptyString, None)
  | String c s' =>
      if Ascii.eqb c "/" then (EmptyString, Some s')
      else let '(h, r) := split_1 s' in (String c h, r)
  end.

Lemma split_1_shorter (s h r : string) :
  split_1 s = (h, Some r) -> (String.length r < String.length s)%nat.
Proof.
  revert h r. induction s as [|c s IH]; intros h r; simpl; [discriminate|].
  destruct (Ascii.eqb c "/").
  - intros [= _ <-]. lia.
  - destruct (split_1 s) as [h' r'] eqn:Hs. intros [= _ ->].
    specialize (IH _ _ eq_refl). lia.
Qed.

(** ['/'.join(l)] *)
Fixpoint join (l : list string) : string :=
  match l with
  | [] => EmptyString
  | x :: l' => match l' with
               | [] => x
               | _ :: _ => (x ++ "/" ++ join l')%string
               end
  end.

(** Truth value of a [str]. *)
Definition truthy (s : string) : bool :=
  match s with EmptyString => false | String _ _ => true end.

(** Truth value of an argument that is [None] or a [str]. *)
Definition otruthy (o : option string) : bool :=
  match o with None => false | Some s => truthy s end.

(** ["%s" % (x,)] for [x] that is [None] or a [str]. *)
Definition fmt_s (o : option string) : string :=
  match o with None => "None"%string | Some s => s end.

(** The arguments exceptions of the operating system carry: integers and
    strings. *)
Inductive atom := AInt (z : Z) | AStr (s : string).

(** [str(x)] *)
Definition str (x : atom) : string :=
  match x with
  | AInt z => NilZero.string_of_int (Z.to_int z)
  | AStr s => s
  end.

End Py.

Import Py.

(** ** Constants of the protocol engine *)

Definition LIBSSH2_ERROR_EAGAIN : Z := -37.

(** [os.linesep] encoded, on a POSIX host. *)
Definition posix_linesep : bytes := [x0a].

(** ** Output demultiplexer: [SSHClient._read_output] *)

Module Demux.

(** The values [read_func()] returns, one per call: [(_size, _data)].  Once
    the list is used up the channel is at end of stream and every further
    call returns [(0, b"")]. *)
Definition reads := list (Z * bytes).

Definition scan_measure (_size _pos : Z) (remainder : bytes) : nat :=
  (2 * Z.to_nat (_size - _pos) + (if (0 <? len remainder)%Z then 1 else 0))%nat.

Lemma find_at_ge (s sub : bytes) (i : Z) : 0 <= find_at s sub i -> i <= find_at s sub i.
Proof.
  revert i. induction s as [|c s IH]; intros i; cbn [find_at].
  - destruct (startswith [] sub); lia.
  - destruct (startswith (c :: s) sub); [lia|].
    intros H. specialize (IH (i + 1) H). lia.
Qed.

Lemma find_ge (s sub : bytes) (start : Z) : 0 <= find s sub start -> start <= find s sub start.
Proof.
  unfold find. destruct (len s <? start) eqn:E; [lia|].
  apply Z.ltb_ge in E. intros H. apply find_at_ge in H.
  unfold clip in *. destruct (start <? 0) eqn:E'; [apply Z.ltb_lt in E'|apply Z.ltb_ge in E']; lia.
Qed.

Section ReadOutput.

Variable LINESEP : bytes.

(** The inner loop [while _pos < _size], from one chunk: the lines it
    yields, in order, and the remainder it leaves. *)
Equations? scan (_size : Z) (_data : bytes) (_pos : Z) (remainder : bytes)
  : list bytes * bytes by wf (scan_measure _size _pos remainder) lt :=
  scan _size _data _pos remainder with Z_lt_dec _pos _size => {
    | right _ => ([], remainder)
    | left _ with Z_lt_dec 0 (find (slice_to _data _size) LINESEP _pos) => {
        | left _ with Z_lt_dec 0 (len remainder) => {
            | left _ =>
                let '(ys, r) := scan _size _data _pos [] in
                ((remainder ++ strip (slice _data _pos (find (slice_to _data _size) LINESEP _pos))) :: ys, r)
            | right _ =>
                let '(ys, r) :=
                  scan _size _data (find (slice_to _data _size) LINESEP _pos + 1) remainder in
                (strip (slice _data _pos (find (slice_to _data _size) LINESEP _pos)) :: ys, r) }
        | right _ => ([], remainder ++ slice_from _data _pos) } }.
Proof.
  - unfold scan_measure. simpl.
    destruct (0 <? len remainder) eqn:E; [lia|]. apply Z.ltb_ge in E. lia.
  - unfold scan_measure.
    destruct (0 <? len remainder) eqn:E; [apply Z.ltb_lt in E; lia|].
    assert (_pos <= find (slice_to _data _size) LINESEP _pos) by (apply find_ge; lia).
    lia.
Qed.

(** The outer loop [while _size > 0], entered with the chunk that was just
    read. *)
Fixpoint read_loop (rs : reads) (_size : Z) (_data : bytes) (remainder : bytes)
  : list bytes :=
  if 0 <? _size then
    let '(ys, remainder') := scan _size _data 0 remainder in
    match rs with
    | [] => ys
    | (_size', _data') :: rs' => ys ++ read_loop rs' _size' _data' remainder'
    end
  else [].

(** The first loop [while _size == LIBSSH2_ERROR_EAGAIN]: the first read
    that is not a would-block, and what is left to read after it. *)
Fixpoint first_read (rs : reads) : (Z * bytes) * reads :=
  match rs with
  | [] => ((0, []), [])
  | (_size, _data) :: rs' =>
      if _size =? LIBSSH2_ERROR_EAGAIN then first_read rs' else ((_size, _data), rs')
  end.

(** The lines the generator yields, in order, until it is exhausted. *)
Definition _read_output (rs : reads) : list bytes :=
  let '((_size, _data), rs') := first_read rs in
  read_loop rs' _size _data [].

End ReadOutput.

End Demux.

(** ** Exceptions *)

Inductive exn :=
| sock_error (args : list atom)           (* socket.error *)
| IndexError
| ValueError (msg : string)
| IOError (filename : string)
| AuthenticationError                      (* ssh2.exceptions *)
| AgentError
| SessionHandshakeError
| SFTPHandleError
| SFTPIOError_ssh2
| OtherError (name : string)               (* any other exception class *)
| ConnectionErrorException                 (* pssh.exceptions *)
    (msg host : string) (port : Z) (error_type : string) (retries num_retries : Z)
| SessionError (msg host : string) (port : Z) (ex : exn)
| AuthenticationException (msg : string)
| AuthenticationException_at (msg host : string) (port : Z) (ex : exn)
| SFTPError (msg remote_file : string) (errno : Z)
| SFTPIOError (msg remote_file : string)
| SFTPIOError_from (msg remote_file : string) (ex : exn)
| SFTPIOError_at (msg directory host : string) (ex : exn).

(** [isinstance(e, AuthenticationException)]: the class is raised with a
    message alone, and with a message, host, port and cause. *)
Definition is_AuthenticationException (e : exn) : bool :=
  match e with
  | AuthenticationException _ | AuthenticationException_at _ _ _ _ => true
  | _ => false
  end.

(** ** The external collaborators: protocol engine and operating system

    The client drives an SSH protocol engine (ssh2-python over libssh2), a
    socket and the local file system.  None of them is part of the client;
    they are modelled by a scripted engine: [mock] fixes how the outside
    answers, [world] is the state the calls change. *)

(** What an engine call returns. *)
Inductive value :=
| VNone
| VInt (z : Z)
| VAttrs                       (* SFTP attributes of a status call *)
| VChannel
| VSftp.

Inductive outcome := Returns (v : value) | Raises (e : exn).

(** Calls the engine and the operating system completed, oldest first.  A
    call that answered would-block is not recorded: it is the same call
    still in progress. *)
Inductive event :=
| EConnect (host : string) (port : Z)
| ESleep (secs : Z)
| EHandshake
| EAgentAuth (user : string)
| EPublickeyFromfile (user pub_file priv_file passphrase : string)
| EPassword (user password : string)
| EOpenSession
| EPty
| EExecute (cmd : string)
| ESftpInit
| EStat (path : string)
| EMkdir (path : string) (mode : Z)
| EOpen (path : string) (flags mode : Z)
| EWrite (path : string) (data : bytes).

Record mock := {
  (** the n-th [connect] (from 0): [None] connects, [Some args] raises
      a [socket.error] with these arguments *)
  connect_result : nat -> option (list atom);
  handshake_result : outcome;
  agent_result : outcome;
  (** public-key authentication, by private key file *)
  key_result : string -> outcome;
  password_result : outcome;
  (** [os.path.expanduser('~')] *)
  home : string;
  (** [os.path.isfile] *)
  isfile : string -> bool;
  (** [os.path.isdir] and [os.listdir] on the local host *)
  local_isdir : string -> bool;
  local_listdir : string -> list string;
  (** the directory remote relative paths start from *)
  remote_cwd : string;
  (** remote directories the server refuses to create *)
  mkdir_denied : string -> bool;
  (** the size of the chunks a remote file is read in *)
  chunk_size : nat
}.

Record world := {
  (** one entry per call of an engine function that can answer
      would-block, consumed in order: [true] answers would-block; past the
      end nothing blocks *)
  blocks : list bool;
  (** [session.last_errno()] *)
  errno : Z;
  trace : list event;
  (** remote directories and files, by absolute path *)
  rdirs : list string;
  rfiles : list (string * bytes);
  (** local files *)
  lfiles : list (string * bytes)
}.

Definition set_blocks (bs : list bool) (w : world) : world :=
  {| blocks := bs; errno := errno w; trace := trace w;
     rdirs := rdirs w; rfiles := rfiles w; lfiles := lfiles w |}.

Definition set_errno (e : Z) (w : world) : world :=
  {| blocks := blocks w; errno := e; trace := trace w;
     rdirs := rdirs w; rfiles := rfiles w; lfiles := lfiles w |}.

Definition log (ev : event) (w : world) : world :=
  {| blocks := blocks w; errno := errno w; trace := trace w ++ [ev];
     rdirs := rdirs w; rfiles := rfiles w; lfiles := lfiles w |}.

Definition set_rdirs (ds : list string) (w : world) : world :=
  {| blocks := blocks w; errno := errno w; trace := trace w;
     rdirs := ds; rfiles := rfiles w; lfiles := lfiles w |}.

Definition set_rfiles (fs : list (string * bytes)) (w : world) : world :=
  {| blocks := blocks w; errno := errno w; trace := trace w;
     rdirs := rdirs w; rfiles := fs; lfiles := lfiles w |}.

Definition set_lfiles (fs : list (string * bytes)) (w : world) : world :=
  {| blocks := blocks w; errno := errno w; trace := trace w;
     rdirs := rdirs w; rfiles := rfiles w; lfiles := fs |}.

(** ** The monad of client code: state, exceptions, and loops that may
    never end *)

Inductive result (A : Type) := Ok (a : A) | Raise (e : exn).
Arguments Ok {A} a.
Arguments Raise {A} e.

(** [None]: the call never returns. *)
Definition M (A : Type) := world -> option (result A * world).

Definition ret {A} (a : A) : M A := fun w => Some (Ok a, w).

Definition raise {A} (e : exn) : M A := fun w => Some (Raise e, w).

Definition bind {A B} (m : M A) (k : A -> M B) : M B :=
  fun w => match m w with
           | None => None
           | Some (Ok a, w') => k a w'
           | Some (Raise e, w') => Some (Raise e, w')
           end.

(** [try: m  except <handler e is Some>: ...]; an exception the handler
    does not take propagates. *)
Definition try_except {A} (m : M A) (handler : exn -> option (M A)) : M A :=
  fun w => match m w with
           | None => None
           | Some (Ok a, w') => Some (Ok a, w')
           | Some (Raise e, w') =>
               match handler e with
               | Some h => h w'
               | None => Some (Raise e, w')
               end
           end.

Declare Scope client_scope.
Delimit Scope client_scope with client.
Notation "x <- m ;; k" := (bind m (fun x => k))
  (at level 61, m at next level, right associativity) : client_scope.
Notation "m ;; k" := (bind m (fun _ => k))
  (at level 61, right associativity) : client_scope.
Local Open Scope client_scope.

Definition effect (f : world -> world) : M unit := fun w => Some (Ok tt, f w).

(** ** The scripted engine *)

(** Constants the client imports from the engine ([ssh2.error_codes],
    [ssh2.sftp]), with the values libssh2 gives them. *)
Definition LIBSSH2_ERROR_SFTP_PROTOCOL : Z := -31.

Definition LIBSSH2_FXF_WRITE : Z := 2.
Definition LIBSSH2_FXF_CREAT : Z := 8.
Definition LIBSSH2_FXF_TRUNC : Z := 16.

Definition LIBSSH2_SFTP_S_IRUSR : Z := 256.
Definition LIBSSH2_SFTP_S_IWUSR : Z := 128.
Definition LIBSSH2_SFTP_S_IXUSR : Z := 64.
Definition LIBSSH2_SFTP_S_IRGRP : Z := 32.
Definition LIBSSH2_SFTP_S_IXGRP : Z := 8.
Definition LIBSSH2_SFTP_S_IROTH : Z := 4.
Definition LIBSSH2_SFTP_S_IXOTH : Z := 1.

Module Engine.

Definition mem (x : string) (l : list string) : bool := existsb (String.eqb x) l.

Fixpoint lookup (k : string) (l : list (string * bytes)) : option bytes :=
  match l with
  | [] => None
  | (k', v) :: l' => if String.eqb k k' then Some v else lookup k l'
  end.

Fixpoint store (k : string) (v : bytes) (l : list (string * bytes))
  : list (string * bytes) :=
  match l with
  | [] => [(k, v)]
  | (k', v') :: l' => if String.eqb k k' then (k, v) :: l' else (k', v') :: store k v l'
  end.

Definition content (k : string) (l : list (string * bytes)) : bytes :=
  match lookup k l with Some v => v | None => [] end.

(** The world in which the call of a pumped function gets its definitive
    answer: the would-blocks scheduled before it are used up, and once one
    was answered [last_errno] holds the would-block code. *)
Fixpoint ready (bs : list bool) (w : world) : world :=
  match bs with
  | true :: bs' => ready bs' (set_errno LIBSSH2_ERROR_EAGAIN (set_blocks bs' w))
  | false :: bs' => set_blocks bs' w
  | [] => w
  end.

Definition settled (w : world) : world := ready (blocks w) w.

(** A call of an engine function in non-blocking mode: it answers
    would-block when the schedule says so, and otherwise completes. *)
Definition engine_call {A} (would_block : A) (ev : event)
  (complete : world -> result A * world) : M A :=
  fun w =>
    match blocks w with
    | true :: bs => Some (Ok would_block, set_errno LIBSSH2_ERROR_EAGAIN (set_blocks bs w))
    | false :: bs => Some (complete (log ev (set_blocks bs w)))
    | [] => Some (complete (log ev w))
    end.

Definition answer (o : outcome) (w : world) : result value * world :=
  match o with
  | Returns v => (Ok v, w)
  | Raises e => (Raise e, w)
  end.

Definition EAGAIN : value := VInt LIBSSH2_ERROR_EAGAIN.

Section Ops.

Variable E : mock.

Definition connects (w : world) : nat :=
  List.length (filter (fun ev => match ev with EConnect _ _ => true | _ => false end) (trace w)).

(** [sock.connect((host, port))] *)
Definition sock_connect (host : string) (port : Z) (w : world) : result unit * world :=
  match connect_result E (connects w) with
  | None => (Ok tt, log (EConnect host port) w)
  | Some args => (Raise (sock_error args), log (EConnect host port) w)
  end.

(** [gevent.sleep(secs)] *)
Definition sleep (secs : Z) (w : world) : world := log (ESleep secs) w.

(** [wait_select(sock, session)]: returns once the socket is ready. *)
Definition wait_select : M unit := ret tt.

(** [session.last_errno()] *)
Definition last_errno : M Z := fun w => Some (Ok (errno w), w).

(** [session.handshake(sock)], on the blocking session *)
Definition handshake : M value :=
  fun w => Some (answer (handshake_result E) (log EHandshake w)).

(** [session.agent_auth(user)] *)
Definition agent_auth (user : string) : M value :=
  fun w => Some (answer (agent_result E) (log (EAgentAuth user) w)).

(** [session.userauth_publickey_fromfile(user, pub, priv, passphrase)] *)
Definition userauth_publickey_fromfile (user pub_file priv_file passphrase : string)
  : M value :=
  engine_call EAGAIN (EPublickeyFromfile user pub_file priv_file passphrase)
    (answer (key_result E priv_file)).

(** [session.userauth_password(user, password)] *)
Definition userauth_password (user password : string) : M value :=
  engine_call EAGAIN (EPassword user password) (answer (password_result E)).

(** [open_session(sock, session)] of the native helper *)
Definition open_session : M value :=
  fun w => Some (Ok VChannel, log EOpenSession w).

(** [channel.pty()] and [channel.execute(cmd)] *)
Definition channel_pty : M value :=
  engine_call EAGAIN EPty (fun w => (Ok (VInt 0), w)).

Definition channel_execute (cmd : string) : M value :=
  engine_call EAGAIN (EExecute cmd) (fun w => (Ok (VInt 0), w)).

(** [session.sftp_init()]: [None] while it would block *)
Definition sftp_init : M value :=
  engine_call VNone ESftpInit (fun w => (Ok VSftp, w)).

(** *** The remote file system *)

Definition is_absolute (p : string) : bool :=
  match p with
  | String c _ => Ascii.eqb c "/"
  | EmptyString => false
  end.

Definition resolve (p : string) : string :=
  if is_absolute p then p else (remote_cwd E ++ "/" ++ p)%string.

(** The directory an absolute path lies in; the root is the empty path. *)
Definition dirname (q : string) : string := join (removelast (split q)).

Definition is_dir (w : world) (q : string) : bool :=
  String.eqb q "" || mem q (rdirs w).

Definition is_file (w : world) (q : string) : bool :=
  match lookup q (rfiles w) with Some _ => true | None => false end.

Definition remote_exists (w : world) (p : string) : bool :=
  mem (resolve p) (rdirs w) || is_file w (resolve p).

Definition failed {A} (e : exn) (w : world) : result A * world :=
  (Raise e, set_errno LIBSSH2_ERROR_SFTP_PROTOCOL w).

(** [sftp.stat(path)] *)
Definition sftp_stat (path : string) : M value :=
  engine_call EAGAIN (EStat path)
    (fun w => if remote_exists w path then (Ok VAttrs, w) else failed SFTPHandleError w).

Definition can_mkdir (w : world) (path : string) : bool :=
  negb (remote_exists w path)
  && is_dir w (dirname (resolve path))
  && negb (mkdir_denied E (resolve path)).

(** [sftp.mkdir(path, mode)] *)
Definition sftp_mkdir (path : string) (mode : Z) : M value :=
  engine_call EAGAIN (EMkdir path mode)
    (fun w => if can_mkdir w path
              then (Ok (VInt 0), set_rdirs (rdirs w ++ [resolve path]) w)
              else failed SFTPIOError_ssh2 w).

(** A remote file handle: the absolute path of the file it is open on. *)
Definition handle := string.

(** [sftp.open(path, flags, mode)]: [None] while it would block and when
    the open fails; [last_errno] tells which. *)
Definition sftp_open (path : string) (flags mode : Z) : M (option handle) :=
  engine_call None (EOpen path flags mode)
    (fun w =>
       let q := resolve path in
       if negb (Z.land flags LIBSSH2_FXF_CREAT =? 0) then
         if is_dir w (dirname q) && negb (mem q (rdirs w)) then
           let old := if negb (Z.land flags LIBSSH2_FXF_TRUNC =? 0) then []
                      else content q (rfiles w) in
           (Ok (Some q), set_rfiles (store q old (rfiles w)) w)
         else (Ok None, set_errno LIBSSH2_ERROR_SFTP_PROTOCOL w)
       else if is_file w q then (Ok (Some q), w)
       else (Ok None, set_errno LIBSSH2_ERROR_SFTP_PROTOCOL w)).

(** [remote_fh.write(data)]: the number of bytes written, or would-block
    with nothing written. *)
Definition fh_write (fh : handle) (data : bytes) : M value :=
  engine_call EAGAIN (EWrite fh data)
    (fun w => (Ok (VInt (len data)),
               set_rfiles (store fh (content fh (rfiles w) ++ data) (rfiles w)) w)).

Fixpoint chunks (fuel n : nat) (s : bytes) : list bytes :=
  match fuel with
  | O => []
  | S fuel' => match s with
               | [] => []
               | _ :: _ => firstn n s :: chunks fuel' n (skipn n s)
               end
  end.

(** [for size, data in remote_fh]: the pairs the handle yields until the
    end of the file. *)
Definition fh_iter (fh : handle) : M (list (Z * bytes)) :=
  fun w =>
    let s := content fh (rfiles w) in
    Some (Ok (map (fun c => (len c, c)) (chunks (List.length s) (Nat.max 1 (chunk_size E)) s)),
          w).

(** *** The local file system *)

(** [open(path, 'rb')] *)
Definition local_open_rb (path : string) : M bytes :=
  fun w => match lookup path (lfiles w) with
           | Some v => Some (Ok v, w)
           | None => Some (Raise (IOError path), w)
           end.

(** [open(path, 'wb')] *)
Definition local_open_wb (path : string) : M unit :=
  effect (fun w => set_lfiles (store path [] (lfiles w)) w).

(** [local_fh.write(data)] *)
Definition local_write (path : string) (data : bytes) : M unit :=
  effect (fun w => set_lfiles (store path (content path (lfiles w) ++ data) (lfiles w)) w).

(** [for data in local_fh]: the lines of a binary file, each with its
    terminating newline. *)
Fixpoint readlines_acc (acc s : bytes) : list bytes :=
  match s with
  | [] => match acc with [] => [] | _ :: _ => [acc] end
  | c :: s' => if Byte.eqb c x0a then (acc ++ [c]) :: readlines_acc [] s'
               else readlines_acc (acc ++ [c]) s'
  end.

Definition readlines (s : bytes) : list bytes := readlines_acc [] s.

(** [os.path.join(a, b)] on a POSIX host *)
Definition os_path_join (a c : string) : string :=
  if is_absolute c then c
  else match a with
       | EmptyString => c
       | _ => if is_absolute (string_of_list_ascii (rev (list_ascii_of_string a)))
              then (a ++ c)%string else (a ++ "/" ++ c)%string
       end.

End Ops.

End Engine.

(** ** The client: class [SSHClient] *)

Module Client.

Import Engine.

Record SSHClient := {
  host : string;
  user : string;
  password : option string;
  port : Z;
  pkey : option string;
  num_retries : Z;
  allow_agent : bool
}.

Definition dquote : string := String "034"%char EmptyString.

Section Methods.

Variable E : mock.
Variable self : SSHClient.

Definition IDENTITIES : list string :=
  [ (home E ++ "/.ssh/id_rsa")%string;
    (home E ++ "/.ssh/id_dsa")%string;
    (home E ++ "/.ssh/identity")%string ].

(** *** Transport establisher *)

Definition connect_msg : string := "Error connecting to host '%s:%s' - %s - retry %s/%s".

(** [ex.args[1] if len(ex.args) > 1 else ex.args[0]] *)
Definition error_type (args : list atom) : option atom :=
  if 1 <? len args then nth_error args 1 else nth_error args 0.

Equations? _connect (retries : Z) (w : world) : option (result unit * world)
  by wf (Z.to_nat (num_retries self - retries)) lt :=
  _connect retries w with sock_connect E (host self) (port self) w => {
    | (Ok _, w1) => Some (Ok tt, w1)
    | (Raise (sock_error args), w1) with Z_lt_dec retries (num_retries self) => {
        | left _ => _connect (retries + 1) (sleep 5 w1)
        | right _ with error_type args => {
            | Some t =>
                Some (Raise (ConnectionErrorException connect_msg (host self) (port self)
                               (str t) retries (num_retries self)), w1)
            | None => Some (Raise IndexError, w1) } }
    | (Raise e, w1) => Some (Raise e, w1) }.
Proof. lia. Qed.

(** *** Operation pump *)

(** A loop [while again(r): wait_select(...); r = call()].  It is unrolled
    [fuel] times; an engine that still answers would-block then does so for
    ever, and the loop never ends. *)
Fixpoint retry_while {A} (fuel : nat) (again : A -> bool) (call : M A) (r : A) : M A :=
  if again r then
    match fuel with
    | O => fun _ => None
    | S fuel' => wait_select ;; r' <- call ;; retry_while fuel' again call r'
    end
  else ret r.

(** One more than the would-blocks the engine has scheduled. *)
Definition patience (w : world) : nat := S (List.length (blocks w)).

Definition is_eagain (v : value) : bool :=
  match v with
  | VInt z => z =? LIBSSH2_ERROR_EAGAIN
  | _ => false
  end.

Definition _eagain (func : M value) : M value :=
  r <- func ;; fun w => retry_while (patience w) is_eagain func r w.

(** *** Authentication chain *)

Definition passphrase : string :=
  match password self with Some p => p | None => EmptyString end.

Definition _pkey_auth : M unit :=
  let pub_file := (fmt_s (pkey self) ++ ".pub")%string in
  _eagain (userauth_publickey_fromfile E (user self) pub_file (fmt_s (pkey self)) passphrase) ;;
  ret tt.

(** The loop of [_identity_auth] over the identities still to try. *)
Fixpoint identity_loop (identities : list string) : M unit :=
  match identities with
  | [] => raise (AuthenticationException "No authentication methods succeeded")
  | identity_file :: rest =>
      if negb (isfile E identity_file) then identity_loop rest
      else
        let pub_file := (identity_file ++ ".pub")%string in
        try_except
          (_eagain (userauth_publickey_fromfile E (user self) pub_file identity_file passphrase) ;;
           ret tt)
          (fun _ => Some (identity_loop rest))
  end.

Definition _identity_auth : M unit := identity_loop IDENTITIES.

Definition _password_auth : M unit :=
  match password self with
  | None => raise (OtherError "TypeError")
  | Some p =>
      r <- _eagain (userauth_password E (user self) p) ;;
      match r with
      | VInt 0 => ret tt
      | _ => raise (AuthenticationException "Password authentication failed")
      end
  end.

(** The last statement of [auth]: [_identity_auth()], and on its
    [AuthenticationException] the password when one was supplied. *)
Definition password_fallback : M unit :=
  try_except _identity_auth
    (fun ex => if is_AuthenticationException ex
               then Some (match password self with
                          | None => raise ex
                          | Some _ => _password_auth
                          end)
               else None).

Definition auth : M unit :=
  match pkey self with
  | Some _ => _pkey_auth
  | None =>
      if allow_agent self then
        fun w => match agent_auth E (user self) w with
                 | None => None
                 | Some (Ok _, w') => Some (Ok tt, w')
                 | Some (Raise AuthenticationError, w') => password_fallback w'
                 | Some (Raise AgentError, w') => password_fallback w'
                 | Some (Raise ex, w') => Some (Raise ex, w')
                 end
      else password_fallback
  end.

(** [_init], once the session object exists: handshake, then [auth];
    [session.set_blocking(0)] follows and changes nothing here. *)
Definition _init : M unit :=
  try_except (handshake E ;; ret tt)
    (fun ex => match ex with
               | SessionHandshakeError =>
                   Some (raise (SessionError "Error connecting to host %s:%s - %s"
                                  (host self) (port self) ex))
               | _ => None
               end) ;;
  try_except auth
    (fun ex => match ex with
               | AuthenticationError =>
                   Some (raise (AuthenticationException_at
                                  "Authentication error while connecting to %s:%s - %s"
                                  (host self) (port self) ex))
               | _ => None
               end).

(** *** Command executor *)

Definition execute (cmd : string) (use_pty : bool) (channel : option value) : M value :=
  channel <- match channel with None => open_session | Some c => ret c end ;;
  (if use_pty then _eagain channel_pty ;; ret tt else ret tt) ;;
  _eagain (channel_execute cmd) ;;
  ret channel.

(** The local [_command] of [run_command]. *)
Definition _command (command : string) (sudo : bool) (user shell : option string)
  : string :=
  if negb sudo && negb (otruthy user) && negb (otruthy shell) then command
  else
    let _command := EmptyString in
    let _command :=
      if sudo && negb (otruthy user) then "sudo -S "%string
      else if otruthy user then ("sudo -u " ++ fmt_s user ++ " -S ")%string
      else _command in
    if otruthy shell
    then (_command ++ fmt_s shell ++ " " ++ dquote ++ command ++ dquote)%string
    else (_command ++ "$SHELL -c " ++ dquote ++ command ++ dquote)%string.

(** [run_command]: the channel and the host; the two output generators it
    also returns are not started by the call. *)
Definition run_command (command : string) (sudo : bool) (user : option string)
  (use_pty : bool) (shell : option string) : M (value * string) :=
  channel <- execute (_command command sudo user shell) use_pty None ;;
  ret (channel, host self).

(** *** SFTP transfer *)

Definition _make_sftp : M value :=
  sftp <- sftp_init ;;
  fun w => retry_while (patience w)
             (fun s => match s with VNone => true | _ => false end) sftp_init sftp w.

Definition _mkdir (sftp : value) (directory : string) : M unit :=
  let mode := Z.lor LIBSSH2_SFTP_S_IRUSR
             (Z.lor LIBSSH2_SFTP_S_IWUSR
             (Z.lor LIBSSH2_SFTP_S_IXUSR
             (Z.lor LIBSSH2_SFTP_S_IRGRP
             (Z.lor LIBSSH2_SFTP_S_IROTH
             (Z.lor LIBSSH2_SFTP_S_IXGRP LIBSSH2_SFTP_S_IXOTH))))) in
  try_except (_eagain (sftp_mkdir E directory mode) ;; ret tt)
    (fun error => match error with
                  | SFTPIOError_ssh2 =>
                      Some (raise (SFTPIOError_at
                                     "Error occured creating directory %s on host %s - %s"
                                     directory (host self) error))
                  | _ => None
                  end).

(** [_eagain(sftp.stat, path)], and [otherwise] when it raises
    [SFTPHandleError]. *)
Definition stat_or (sftp : value) (path : string) (otherwise : M unit) : M unit :=
  try_except (_eagain (sftp_stat E path) ;; ret tt)
    (fun ex => match ex with
               | SFTPHandleError => Some otherwise
               | _ => None
               end).

(** [_parent_path if parent_path is None else '/'.join([parent_path, _parent_path])] *)
Definition under (parent_path : option string) (_parent_path : string) : string :=
  match parent_path with
  | None => _parent_path
  | Some p => join [p; _parent_path]
  end.

Equations? mkdir (sftp : value) (directory : string) (parent_path : option string)
  : M unit by wf (String.length directory) lt :=
  mkdir sftp directory parent_path with inspect (split_1 directory) => {
    | exist _ (_parent_path, None) _ =>
        let _directory := under parent_path _parent_path in
        stat_or sftp _directory (_mkdir sftp _directory)
    | exist _ (_parent_path, Some sub_dirs) Hsplit =>
        let _directory := under parent_path _parent_path in
        stat_or sftp _directory (_mkdir sftp _directory) ;;
        mkdir sftp sub_dirs (Some (under parent_path _parent_path)) }.
Proof. eapply split_1_shorter; eauto. Qed.

Definition _remote_paths_split (file_path : string) : string :=
  join (slice (filter truthy (split file_path)) 0 (-1)).

Definition _sftp_openfh (open_func : M (option handle)) (remote_file : string)
  : M (option handle) :=
  let call := (fh <- open_func ;; errno <- last_errno ;; ret (fh, errno)) in
  r <- call ;;
  r' <- (fun w => retry_while (patience w)
                    (fun '(fh, errno) =>
                       match fh with
                       | None => errno =? LIBSSH2_ERROR_EAGAIN
                       | Some _ => false
                       end) call r w) ;;
  let '(fh, errno) := r' in
  if negb (errno =? LIBSSH2_ERROR_EAGAIN)
  then raise (SFTPError "Error opening file handle for file %s - error no: %s"
                remote_file errno)
  else ret fh.

(** [for x in l: body(x)] *)
Fixpoint for_each {A} (l : list A) (body : A -> M unit) : M unit :=
  match l with
  | [] => ret tt
  | x :: l' => body x ;; for_each l' body
  end.

(** [with <handle> as fh] applied to what [_sftp_openfh] returned. *)
Definition entered (fh : option handle) : M handle :=
  match fh with
  | Some h => ret h
  | None => raise (OtherError "AttributeError")
  end.

Definition sftp_put (sftp : value) (local_file remote_file : string) : M unit :=
  let mode := Z.lor LIBSSH2_SFTP_S_IRUSR
             (Z.lor LIBSSH2_SFTP_S_IWUSR
             (Z.lor LIBSSH2_SFTP_S_IRGRP LIBSSH2_SFTP_S_IROTH)) in
  let f_flags := Z.lor LIBSSH2_FXF_CREAT (Z.lor LIBSSH2_FXF_WRITE LIBSSH2_FXF_TRUNC) in
  try_except
    (fh <- _sftp_openfh (sftp_open E remote_file f_flags mode) remote_file ;;
     remote_fh <- entered fh ;;
     local_fh <- local_open_rb local_file ;;
     for_each (readlines local_fh) (fun data => fh_write remote_fh data ;; ret tt))
    (fun ex => match ex with
               | SFTPIOError_ssh2 =>
                   Some (raise (SFTPIOError_from "Error writing to remote file %s - %s"
                                  remote_file ex))
               | _ => None
               end).

Definition sftp_get (sftp : value) (remote_file local_file : string) : M unit :=
  try_except
    (local_open_wb local_file ;;
     fh <- _sftp_openfh (sftp_open E remote_file 0 0) remote_file ;;
     remote_fh <- entered fh ;;
     pairs <- fh_iter E remote_fh ;;
     for_each pairs (fun '(size, data) => local_write local_file data))
    (fun ex => match ex with
               | SFTPIOError_ssh2 =>
                   Some (raise (SFTPIOError_from "Error reading from remote file %s - %s"
                                  remote_file ex))
               | _ => None
               end).

(** [_copy_dir], with the [copy_file] it calls on every entry. *)
Definition _copy_dir (copy_file : string -> string -> bool -> option value -> M unit)
  (local_dir remote_dir : string) (sftp : value) : M unit :=
  let file_list := local_listdir E local_dir in
  for_each file_list
    (fun file_name =>
       let local_path := os_path_join local_dir file_name in
       let remote_path := join [remote_dir; file_name] in
       copy_file local_path remote_path true (Some sftp)).

(** [copy_file]; [depth] bounds how deep it descends into local
    directories. *)
Fixpoint copy_file (depth : nat) (local_file remote_file : string) (recurse : bool)
  (sftp : option value) : M unit :=
  sftp <- match sftp with None => _make_sftp | Some s => ret s end ;;
  if local_isdir E local_file && recurse then
    match depth with
    | O => fun _ => None
    | S depth' => _copy_dir (copy_file depth') local_file remote_file sftp
    end
  else if local_isdir E local_file && negb recurse then
    raise (ValueError "Recurse must be true if local_file is a directory.")
  else
    let destination := _remote_paths_split remote_file in
    stat_or sftp destination (mkdir sftp destination None) ;;
    try_except (sftp_put sftp local_file remote_file) (fun error => Some (raise error)).

End Methods.

End Client.

(** * Properties *)

(** ** Output demultiplexer *)

Module DemuxFacts.

Import Demux.

Definition nl : bytes := posix_linesep.

Lemma scan_unfold LINESEP _size _data _pos remainder :
  scan LINESEP _size _data _pos remainder =
  if _pos <? _size then
    let linesep := find (slice_to _data _size) LINESEP _pos in
    if 0 <? linesep then
      if 0 <? len remainder then
        let '(ys, r) := scan LINESEP _size _data _pos [] in
        ((remainder ++ strip (slice _data _pos linesep)) :: ys, r)
      else
        let '(ys, r) := scan LINESEP _size _data (linesep + 1) remainder in
        (strip (slice _data _pos linesep) :: ys, r)
    else ([], remainder ++ slice_from _data _pos)
  else ([], remainder).
Proof.
  rewrite scan_equation_1. unfold scan_unfold_clause_1.
  destruct (Z_lt_dec _pos _size) as [H|H];
    [rewrite (proj2 (Z.ltb_lt _ _) H)|rewrite (proj2 (Z.ltb_ge _ _)); [reflexivity|lia]].
  cbv zeta. unfold scan_unfold_clause_1_clause_2.
  destruct (Z_lt_dec 0 _) as [H1|H1];
    [rewrite (proj2 (Z.ltb_lt _ _) H1)|rewrite (proj2 (Z.ltb_ge _ _)); [reflexivity|lia]].
  unfold scan_unfold_clause_1_clause_2_clause_1.
  destruct (Z_lt_dec 0 (len remainder)) as [H2|H2];
    [rewrite (proj2 (Z.ltb_lt _ _) H2)|rewrite (proj2 (Z.ltb_ge _ _)); [|lia]]; reflexivity.
Qed.


Lemma startswith_nl (s : bytes) : ~ In x0a s -> startswith s nl = false.
Proof.
  destruct s as [|c s]; [reflexivity|]. intros H. simpl.
  destruct (Byte.eqb x0a c) eqn:Ec; [|reflexivity].
  apply Byte.byte_dec_bl in Ec. subst. exfalso. apply H. left. reflexivity.
Qed.

Lemma find_at_none (s : bytes) (i : Z) : ~ In x0a s -> find_at s nl i = -1.
Proof.
  revert i. induction s as [|c s IH]; intros i H; [reflexivity|].
  cbn [find_at]. rewrite startswith_nl by exact H. apply IH. intros Hin. apply H. right. exact Hin.
Qed.

Lemma In_skipn {A} (x : A) n (s : list A) : In x (skipn n s) -> In x s.
Proof.
  revert s. induction n as [|n IH]; intros [|c s]; simpl; auto.
Qed.

Lemma In_firstn {A} (x : A) n (s : list A) : In x (firstn n s) -> In x s.
Proof.
  revert s. induction n as [|n IH]; intros [|c s]; simpl; try tauto.
  intros H; destruct H as [H|H]; auto.
Qed.

Lemma In_slice {A} (x : A) (s : list A) lo hi : In x (slice s lo hi) -> In x s.
Proof. unfold slice. intros H. apply In_firstn in H. apply In_skipn in H. exact H. Qed.

Lemma find_none (s : bytes) (start : Z) : ~ In x0a s -> find s nl start = -1.
Proof.
  intros H. unfold find. destruct (len s <? start); [reflexivity|].
  apply find_at_none. intros Hin. apply H. apply In_skipn in Hin. exact Hin.
Qed.

(** A chunk without a separator yields nothing. *)
Lemma scan_no_sep (_size : Z) (_data : bytes) (_pos : Z) (remainder : bytes) :
  ~ In x0a _data -> fst (scan nl _size _data _pos remainder) = [].
Proof.
  intros H. rewrite scan_unfold.
  destruct (_pos <? _size); [|reflexivity].
  cbv zeta. rewrite find_none; [reflexivity|].
  intros Hin. apply H. unfold slice_to in Hin. apply In_slice in Hin. exact Hin.
Qed.

Definition no_sep (c : Z * bytes) : Prop := ~ In x0a (snd c).

Lemma read_loop_no_sep (rs : reads) (_size : Z) (_data : bytes) (remainder : bytes) :
  ~ In x0a _data -> Forall no_sep rs -> read_loop nl rs _size _data remainder = [].
Proof.
  revert _size _data remainder.
  induction rs as [|[s d] rs IH]; intros _size _data remainder H Hrs; simpl;
    destruct (0 <? _size); try reflexivity;
    pose proof (@scan_no_sep _size _data 0 remainder H) as Hs;
    destruct (scan nl _size _data 0 remainder) as [ys r]; simpl in Hs; subst ys.
  - reflexivity.
  - inversion Hrs; subst. simpl. apply IH; assumption.
Qed.

Lemma first_read_no_sep (rs : reads) :
  Forall no_sep rs -> no_sep (fst (first_read rs)) /\ Forall no_sep (snd (first_read rs)).
Proof.
  induction rs as [|[s d] rs IH]; intros H; simpl.
  - split; [intros []|constructor].
  - inversion H; subst. destruct (s =? LIBSSH2_ERROR_EAGAIN); auto.
Qed.

Lemma read_output_no_sep (rs : reads) : Forall no_sep rs -> _read_output nl rs = [].
Proof.
  intros H. unfold _read_output. destruct (@first_read_no_sep rs H) as [H1 H2].
  destruct (first_read rs) as [[s d] rs']. simpl in *. apply read_loop_no_sep; assumption.
Qed.

Lemma len_app {A} (s t : list A) : len (s ++ t) = len s + len t.
Proof. unfold len. rewrite length_app. lia. Qed.

Lemma len_nonneg {A} (s : list A) : 0 <= len s.
Proof. unfold len. lia. Qed.

Lemma clip_inside (n i : Z) : 0 <= i <= n -> clip n i = i.
Proof. unfold clip. intros H. destruct (i <? 0) eqn:E; [apply Z.ltb_lt in E|]; lia. Qed.

Lemma slice_to_all {A} (s : list A) : slice_to s (len s) = s.
Proof.
  unfold slice_to, slice. pose proof (len_nonneg s).
  rewrite !clip_inside by lia. simpl. replace (Z.to_nat (len s - 0)) with (List.length s) by (unfold len; lia).
  apply firstn_all.
Qed.

Lemma find_at_app (s tail : bytes) (i : Z) :
  ~ In x0a tail -> find_at (s ++ tail) nl i = find_at s nl i.
Proof.
  intros H. revert i. induction s as [|c s IH]; intros i.
  - simpl app. rewrite find_at_none by exact H. reflexivity.
  - simpl app. cbn [find_at]. replace (startswith (c :: s ++ tail) nl) with (startswith (c :: s) nl).
    + destruct (startswith (c :: s) nl); [reflexivity|apply IH].
    + simpl. reflexivity.
Qed.

Lemma find_at_lt (s : bytes) (i : Z) : 0 <= i -> 0 <= find_at s nl i -> find_at s nl i < i + len s.
Proof.
  revert i. induction s as [|c s IH]; intros i Hi; cbn [find_at].
  - simpl. lia.
  - destruct (startswith (c :: s) nl).
    + unfold len. simpl List.length. lia.
    + intros H. specialize (IH (i + 1) ltac:(lia) H). unfold len in *. simpl List.length. lia.
Qed.

Lemma skipn_app_le {A} (n : nat) (s t : list A) :
  (n <= List.length s)%nat -> skipn n (s ++ t) = skipn n s ++ t.
Proof.
  intros H. rewrite skipn_app. replace (n - List.length s)%nat with O by lia. reflexivity.
Qed.

Lemma find_app (data tail : bytes) (pos : Z) :
  ~ In x0a tail -> 0 <= pos <= len data -> find (data ++ tail) nl pos = find data nl pos.
Proof.
  intros H Hp. unfold find. pose proof (len_nonneg tail). rewrite len_app.
  rewrite (proj2 (Z.ltb_ge _ _)) by lia. rewrite (proj2 (Z.ltb_ge (len data) pos)) by lia.
  rewrite !clip_inside by lia.
  rewrite skipn_app_le by (unfold len in *; lia). apply find_at_app. exact H.
Qed.

Lemma find_lt (data : bytes) (pos : Z) :
  0 <= pos -> 0 <= find data nl pos -> find data nl pos < len data.
Proof.
  intros Hp. unfold find. destruct (len data <? pos) eqn:E; [lia|]. apply Z.ltb_ge in E.
  rewrite clip_inside by lia. intros H. apply find_at_lt in H; [|lia].
  unfold len in *. rewrite length_skipn in H. lia.
Qed.

Lemma slice_app {A} (data tail : list A) (lo hi : Z) :
  0 <= lo <= len data -> 0 <= hi <= len data -> slice (data ++ tail) lo hi = slice data lo hi.
Proof.
  intros Hlo Hhi. unfold slice. pose proof (len_nonneg tail). rewrite len_app.
  rewrite !clip_inside by lia.
  rewrite skipn_app_le by (unfold len in *; lia).
  rewrite firstn_app. rewrite length_skipn.
  replace (Z.to_nat (hi - lo) - (List.length data - Z.to_nat lo))%nat with O by (unfold len in *; lia).
  simpl. apply app_nil_r.
Qed.

(** Bytes after the last separator of a chunk do not change what the
    chunk yields. *)
Lemma scan_tail (data tail : bytes) (n : nat) :
  ~ In x0a tail ->
  forall (_pos : Z) (remainder : bytes),
    (scan_measure (len data) _pos remainder <= n)%nat ->
    0 <= _pos <= len data ->
    fst (scan nl (len (data ++ tail)) (data ++ tail) _pos remainder)
    = fst (scan nl (len data) data _pos remainder).
Proof.
  intros Ht. induction n as [|n IH]; intros _pos remainder Hn Hp;
    rewrite (scan_unfold nl (len (data ++ tail))), (scan_unfold nl (len data));
    rewrite !slice_to_all; cbv zeta;
    rewrite find_app by assumption;
    pose proof (len_nonneg tail) as Htl; rewrite len_app;
    unfold scan_measure in Hn.
  - assert (_pos = len data) by (destruct (0 <? len remainder); lia). subst _pos.
    rewrite (Z.ltb_irrefl (len data)).
    destruct (len data <? len data + len tail); [|reflexivity].
    destruct (0 <? find data nl (len data)) eqn:E; [|reflexivity].
    apply Z.ltb_lt in E. pose proof (@find_lt data (len data) ltac:(lia) ltac:(lia)).
    pose proof (@find_ge data nl (len data) ltac:(lia)). lia.
  - destruct (_pos <? len data) eqn:E1.
    + apply Z.ltb_lt in E1. rewrite (proj2 (Z.ltb_lt _ _)) by lia.
      destruct (0 <? find data nl _pos) eqn:E2; [|reflexivity].
      apply Z.ltb_lt in E2.
      pose proof (@find_lt data _pos ltac:(lia) ltac:(lia)) as Hlt.
      pose proof (@find_ge data nl _pos ltac:(lia)) as Hge.
      rewrite slice_app by lia.
      destruct (0 <? len remainder) eqn:E3.
      * specialize (IH _pos [] ltac:(unfold scan_measure; simpl; lia) Hp).
        rewrite len_app in IH.
        destruct (scan nl (len data + len tail) (data ++ tail) _pos []) as [ys r].
        destruct (scan nl (len data) data _pos []) as [ys' r']. simpl in *. congruence.
      * specialize (IH (find data nl _pos + 1) remainder
                      ltac:(unfold scan_measure; rewrite E3; lia) ltac:(lia)).
        rewrite len_app in IH.
        destruct (scan nl (len data + len tail) (data ++ tail) (find data nl _pos + 1) remainder) as [ys r].
        destruct (scan nl (len data) data (find data nl _pos + 1) remainder) as [ys' r']. simpl in *. congruence.
    + apply Z.ltb_ge in E1. assert (_pos = len data) by lia. subst _pos.
      destruct (len data <? len data + len tail); [|reflexivity].
      destruct (0 <? find data nl (len data)) eqn:E; [|reflexivity].
      apply Z.ltb_lt in E. pose proof (@find_lt data (len data) ltac:(lia) ltac:(lia)).
      pose proof (@find_ge data nl (len data) ltac:(lia)). lia.
Qed.


Lemma read_loop_nil (_size : Z) (_data remainder : bytes) :
  read_loop nl [] _size _data remainder
  = if 0 <? _size then fst (scan nl _size _data 0 remainder) else [].
Proof.
  simpl. destruct (0 <? _size); [|reflexivity].
  destruct (scan nl _size _data 0 remainder); reflexivity.
Qed.

Lemma last_chunk_tail (data tail remainder : bytes) :
  ~ In x0a tail ->
  read_loop nl [] (len (data ++ tail)) (data ++ tail) remainder
  = read_loop nl [] (len data) data remainder.
Proof.
  intros Ht. rewrite !read_loop_nil.
  rewrite (@scan_tail data tail _ Ht 0 remainder (le_n _)
             (conj (Z.le_refl 0) (len_nonneg data))).
  pose proof (len_nonneg tail). rewrite len_app.
  destruct (0 <? len data) eqn:E.
  - apply Z.ltb_lt in E. rewrite (proj2 (Z.ltb_lt _ _)) by lia. reflexivity.
  - apply Z.ltb_ge in E. rewrite (scan_unfold nl (len data)).
    rewrite (proj2 (Z.ltb_ge 0 (len data))) by lia.
    destruct (0 <? len data + len tail); reflexivity.
Qed.

Lemma read_loop_tail (rs : reads) (data tail : bytes) :
  ~ In x0a tail ->
  forall (_size : Z) (_data remainder : bytes),
    read_loop nl (rs ++ [(len (data ++ tail), data ++ tail)]) _size _data remainder
    = read_loop nl (rs ++ [(len data, data)]) _size _data remainder.
Proof.
  intros Ht. induction rs as [|[s d] rs IH]; intros _size _data remainder.
  - cbn [app read_loop]. destruct (0 <? _size); [|reflexivity].
    destruct (scan nl _size _data 0 remainder) as [ys r].
    f_equal. apply last_chunk_tail. exact Ht.
  - cbn [app read_loop]. destruct (0 <? _size); [|reflexivity].
    destruct (scan nl _size _data 0 remainder) as [ys r].
    f_equal. apply IH.
Qed.

Lemma read_output_tail (rs : reads) (data tail : bytes) :
  ~ In x0a tail ->
  _read_output nl (rs ++ [(len (data ++ tail), data ++ tail)])
  = _read_output nl (rs ++ [(len data, data)]).
Proof.
  intros Ht. unfold _read_output. induction rs as [|[s d] rs IH].
  - cbn [app first_read].
    pose proof (len_nonneg (data ++ tail)). pose proof (len_nonneg data).
    rewrite !(proj2 (Z.eqb_neq _ LIBSSH2_ERROR_EAGAIN)) by (unfold LIBSSH2_ERROR_EAGAIN; lia).
    apply last_chunk_tail. exact Ht.
  - cbn [app first_read]. destruct (s =? LIBSSH2_ERROR_EAGAIN); [exact IH|].
    apply read_loop_tail. exact Ht.
Qed.

(** The chunk sequence of the line demultiplexing scenario: ["hello\nwor"]
    then ["ld\n"]. *)
Definition hello_world : reads :=
  [(9, b "hello" ++ nl ++ b "wor"); (3, b "ld" ++ nl)].

(** C1 (fails on the code): fed the chunks ["hello\nwor"] and ["ld\n"] with the
    newline as separator, [_read_output] yields three lines, "hello",
    "world" and then "ld" again: after it has yielded the reassembled line
    the scan position is not moved past the separator, so the part of the
    line that lies in the second chunk is yielded a second time as a line
    of its own. *)
Theorem split_line_tail_yielded_twice :
  _read_output nl hello_world = [b "hello"; b "world"; b "ld"].
Proof. vm_compute. reflexivity. Qed.

(** C10: at end of stream the remainder is dropped.  A stream none of whose
    chunks holds a separator yields nothing; bytes that follow the last
    separator of the last chunk do not change what is yielded; and there
    is non-empty output, the single chunk "abc", whose line sequence is
    empty. *)
Theorem remainder_dropped_at_end_of_stream (rs rs' : reads) (data tail : bytes) :
  Forall no_sep rs ->
  ~ In x0a tail ->
  _read_output nl rs = []
  /\ _read_output nl (rs' ++ [(len (data ++ tail), data ++ tail)])
     = _read_output nl (rs' ++ [(len data, data)])
  /\ _read_output nl [(3, b "abc")] = [].
Proof.
  intros Hrs Ht. split; [|split].
  - apply read_output_no_sep. exact Hrs.
  - apply read_output_tail. exact Ht.
  - vm_compute. reflexivity.
Qed.

Lemma remainder_dropped_witness :
  _read_output nl [(2, b "ab"); (1, b "c")] = []
  /\ _read_output nl ([(4, b "a" ++ nl ++ b "bc")] ++ [(len ((b "d" ++ nl) ++ b "ef"), (b "d" ++ nl) ++ b "ef")])
     = _read_output nl ([(4, b "a" ++ nl ++ b "bc")] ++ [(len (b "d" ++ nl), b "d" ++ nl)])
  /\ _read_output nl [(3, b "abc")] = [].
Proof.
  apply (@remainder_dropped_at_end_of_stream
           [(2, b "ab"); (1, b "c")] [(4, b "a" ++ nl ++ b "bc")] (b "d" ++ nl) (b "ef")).
  - repeat constructor; unfold no_sep; simpl; intuition discriminate.
  - simpl; intuition discriminate.
Defined.

End DemuxFacts.

Import Engine Client.

(** ** Operation pump *)

Module PumpFacts.

(** A call completes definitively: what it returns is not the would-block
    code. *)
Definition definitive (complete : world -> result value * world) : Prop :=
  forall w r w', complete w = (Ok r, w') -> is_eagain r = false.

Lemma trace_ready (bs : list bool) (w : world) : trace (ready bs w) = trace w.
Proof. revert w. induction bs as [|[|] bs IH]; intros w; simpl; [reflexivity|rewrite IH|]; reflexivity. Qed.

Lemma rdirs_ready (bs : list bool) (w : world) : rdirs (ready bs w) = rdirs w.
Proof. revert w. induction bs as [|[|] bs IH]; intros w; simpl; [reflexivity|rewrite IH|]; reflexivity. Qed.

Lemma rfiles_ready (bs : list bool) (w : world) : rfiles (ready bs w) = rfiles w.
Proof. revert w. induction bs as [|[|] bs IH]; intros w; simpl; [reflexivity|rewrite IH|]; reflexivity. Qed.

Lemma completed (complete : world -> result value * world) (func : M value) (fuel : nat)
  (w : world) :
  definitive complete ->
  (let '(r, w') := complete w in
   match r with
   | Ok v => retry_while fuel is_eagain func v w'
   | Raise e => Some (Raise e, w')
   end) = Some (complete w).
Proof.
  intros Hd. destruct (complete w) as [[v|e] w'] eqn:Hc; [|reflexivity].
  apply Hd in Hc. destruct fuel; simpl; rewrite Hc; reflexivity.
Qed.

Lemma retry_engine_call (ev : event) (complete : world -> result value * world) :
  definitive complete ->
  forall (bs : list bool) (w : world) (fuel : nat),
    blocks w = bs -> (List.length bs < fuel)%nat ->
    retry_while fuel is_eagain (engine_call EAGAIN ev complete) EAGAIN w
    = Some (complete (log ev (ready bs w))).
Proof.
  intros Hd. induction bs as [|[|] bs IH]; intros w fuel Hb Hf;
    (destruct fuel as [|fuel]; [simpl in Hf; lia|]);
    cbn [retry_while is_eagain EAGAIN]; rewrite Z.eqb_refl;
    unfold bind, wait_select, ret; unfold engine_call at 1; rewrite Hb.
  - apply (@completed complete (engine_call EAGAIN ev complete) fuel (log ev w) Hd).
  - apply IH; [reflexivity|simpl in Hf; lia].
  - apply (@completed complete (engine_call EAGAIN ev complete) fuel (log ev (set_blocks bs w)) Hd).
Qed.

(** The pump on an engine call: the would-blocks scheduled before the call
    completes are consumed, and the caller gets what the completed call
    returns or raises. *)
Lemma eagain_engine_call (ev : event) (complete : world -> result value * world) (w : world) :
  definitive complete ->
  _eagain (engine_call EAGAIN ev complete) w = Some (complete (log ev (settled w))).
Proof.
  intros Hd. unfold _eagain, bind, settled. unfold engine_call at 1.
  destruct (blocks w) as [|[|] bs] eqn:Hb.
  - cbn [ready]. destruct (complete (log ev w)) as [[v|e] w'] eqn:Hc; [|reflexivity].
    apply Hd in Hc. unfold patience. simpl. rewrite Hc. reflexivity.
  - cbn [ready]. apply retry_engine_call; [exact Hd|reflexivity|unfold patience; simpl; lia].
  - cbn [ready]. destruct (complete (log ev (set_blocks bs w))) as [[v|e] w'] eqn:Hc; [|reflexivity].
    apply Hd in Hc. unfold patience. simpl. rewrite Hc. reflexivity.
Qed.

End PumpFacts.

(** ** Authentication chain *)

Module AuthFacts.

Import PumpFacts.

(** An engine answer that is not would-block for ever. *)
Definition settles (o : outcome) : bool :=
  match o with
  | Returns v => negb (is_eagain v)
  | Raises _ => true
  end.

(** An engine answer that settles and reports a failed authentication by
    raising [AuthenticationError]. *)
Definition reports (o : outcome) : bool :=
  match o with
  | Returns v => negb (is_eagain v)
  | Raises AuthenticationError => true
  | Raises _ => false
  end.

(** The agent returns, or reports failure by one of the two exception
    classes of the engine. *)
Definition agent_reports (o : outcome) : bool :=
  match o with
  | Returns _ => true
  | Raises AuthenticationError | Raises AgentError => true
  | Raises _ => false
  end.

Section Chain.

Variable E : mock.
Variable self : SSHClient.

Definition engine_contract : bool :=
  match pkey self with
  | Some k => reports (key_result E k)
  | None =>
      (negb (allow_agent self) || agent_reports (agent_result E))
      && forallb (fun f => settles (key_result E f)) (IDENTITIES E)
      && match password self with
         | Some _ => reports (password_result E)
         | None => true
         end
  end.

(** *** The chain as the specification words it *)

Definition key_attempt (priv : string) : event :=
  EPublickeyFromfile (user self) (priv ++ ".pub") priv (passphrase self).

Definition key_ok (priv : string) : bool :=
  match key_result E priv with Returns _ => true | Raises _ => false end.

Definition agent_ok : bool :=
  match agent_result E with Returns _ => true | Raises _ => false end.

Definition password_ok : bool :=
  match password_result E with Returns (VInt 0) => true | _ => false end.

(** Step 3: the candidates that are [present], in order, up to the first
    that succeeds. *)
Fixpoint identity_scan (present : string -> bool) (identities : list string)
  : list event * bool :=
  match identities with
  | [] => ([], false)
  | f :: rest =>
      if present f then
        if key_ok f then ([key_attempt f], true)
        else let '(evs, ok) := identity_scan present rest in (key_attempt f :: evs, ok)
      else identity_scan present rest
  end.

(** The attempts the chain makes, in order, and whether one succeeded. *)
Definition chain_of (present : string -> bool) : list event * bool :=
  match pkey self with
  | Some k => ([key_attempt k], key_ok k)
  | None =>
      let agent := if allow_agent self then [EAgentAuth (user self)] else [] in
      if allow_agent self && agent_ok then (agent, true)
      else
        let '(ids, ok) := identity_scan present (IDENTITIES E) in
        if ok then (agent ++ ids, true)
        else match password self with
             | Some p => (agent ++ ids ++ [EPassword (user self) p], password_ok)
             | None => (agent ++ ids, false)
             end
  end.

(** The chain with every candidate of the identity list attempted. *)
Definition stated_chain : list event * bool := chain_of (fun _ => true).

(** The chain over the candidates that are files on the local host. *)
Definition chain : list event * bool := chain_of (isfile E).

Definition authentication_failure (e : exn) : Prop :=
  e = AuthenticationError \/ is_AuthenticationException e = true.

(** *** The code against it *)

Lemma definitive_answer (o : outcome) : settles o = true -> definitive (answer o).
Proof.
  intros Hs w r w' H. destruct o as [v|e]; simpl in *; [|discriminate].
  injection H as <- _. apply negb_true_iff. exact Hs.
Qed.

Lemma reports_settles (o : outcome) : reports o = true -> settles o = true.
Proof. destruct o as [v|[]]; simpl; auto. Qed.

Lemma key_call (f : string) (w : world) :
  settles (key_result E f) = true ->
  _eagain (userauth_publickey_fromfile E (user self) (f ++ ".pub") f (passphrase self)) w
  = Some (answer (key_result E f) (log (key_attempt f) (settled w))).
Proof.
  intros Hs. unfold userauth_publickey_fromfile.
  apply eagain_engine_call. apply definitive_answer. exact Hs.
Qed.

Lemma trace_settled (w : world) : trace (settled w) = trace w.
Proof. apply trace_ready. Qed.

Lemma identity_loop_chain (identities : list string) :
  forallb (fun f => settles (key_result E f)) identities = true ->
  forall w, exists w',
    identity_loop E self identities w
    = Some ((if snd (identity_scan (isfile E) identities) then Ok tt
             else Raise (AuthenticationException "No authentication methods succeeded")), w')
    /\ trace w' = trace w ++ fst (identity_scan (isfile E) identities).
Proof.
  induction identities as [|f rest IH]; intros Hs w.
  - exists w. simpl. rewrite app_nil_r. split; reflexivity.
  - simpl in Hs. apply andb_true_iff in Hs as [Hf Hrest].
    cbn [identity_loop identity_scan].
    destruct (isfile E f); cbn [negb]; [|apply IH; exact Hrest].
    unfold try_except, bind. rewrite key_call by exact Hf.
    unfold key_ok. destruct (key_result E f) as [v|e]; cbn [answer].
    + eexists. split; [reflexivity|]. simpl. rewrite trace_settled. reflexivity.
    + destruct (IH Hrest (log (key_attempt f) (settled w))) as [w' [H1 H2]].
      exists w'. destruct (identity_scan (isfile E) rest) as [evs ok]. simpl in *.
      split; [exact H1|]. rewrite H2, trace_settled, <- app_assoc. reflexivity.
Qed.

Lemma password_call (p : string) (w : world) :
  password self = Some p ->
  reports (password_result E) = true ->
  exists r w',
    _password_auth E self w = Some (r, w')
    /\ trace w' = trace w ++ [EPassword (user self) p]
    /\ (password_ok = true -> r = Ok tt)
    /\ (password_ok = false -> exists e, r = Raise e /\ authentication_failure e).
Proof.
  intros Hp Hr. unfold _password_auth, bind. rewrite Hp.
  unfold userauth_password.
  rewrite eagain_engine_call by (apply definitive_answer, reports_settles, Hr).
  unfold password_ok.
  destruct (password_result E) as [v|e]; cbn [answer].
  - destruct v as [|z| | |]; try destruct z; (eexists; eexists; split; [reflexivity|]);
      simpl; rewrite trace_settled; (split; [reflexivity|]); split; intros H;
      try discriminate; try reflexivity;
      (eexists; split; [reflexivity|right; reflexivity]).
  - destruct e; try discriminate Hr.
    eexists; eexists; split; [reflexivity|]. simpl. rewrite trace_settled.
    split; [reflexivity|]. split; intros H; [discriminate|].
    eexists; split; [reflexivity|left; reflexivity].
Qed.


Lemma fallback_chain (w : world) :
  forallb (fun f => settles (key_result E f)) (IDENTITIES E) = true ->
  match password self with Some _ => reports (password_result E) | None => true end = true ->
  let '(ids, ok) := identity_scan (isfile E) (IDENTITIES E) in
  let '(evs, good) :=
    if ok then (ids, true)
    else match password self with
         | Some p => (ids ++ [EPassword (user self) p], password_ok)
         | None => (ids, false)
         end in
  exists r w',
    password_fallback E self w = Some (r, w')
    /\ trace w' = trace w ++ evs
    /\ (good = true -> r = Ok tt)
    /\ (good = false -> exists e, r = Raise e /\ authentication_failure e).
Proof.
  intros Hids Hpw.
  destruct (@identity_loop_chain (IDENTITIES E) Hids w) as [w1 [H1 H2]].
  unfold password_fallback, try_except, _identity_auth. rewrite H1.
  destruct (identity_scan (isfile E) (IDENTITIES E)) as [ids ok]. cbn [fst snd] in *.
  destruct ok.
  - exists (Ok tt), w1. repeat split; auto. discriminate.
  - cbn [is_AuthenticationException].
    destruct (password self) as [p|] eqn:Hp.
    + destruct (@password_call p w1 Hp Hpw) as [r [w' [Ha [Hb [Hc Hd]]]]].
      exists r, w'. repeat split; auto.
      rewrite Hb, H2, <- app_assoc. reflexivity.
    + eexists; eexists. split; [reflexivity|]. repeat split; auto; [discriminate|].
      intros _. eexists. split; [reflexivity|right; reflexivity].
Qed.

Lemma auth_chain (w : world) :
  engine_contract = true ->
  exists r w',
    auth E self w = Some (r, w')
    /\ trace w' = trace w ++ fst chain
    /\ (snd chain = true -> r = Ok tt)
    /\ (snd chain = false -> exists e, r = Raise e /\ authentication_failure e).
Proof.
  unfold engine_contract, auth, chain, chain_of. destruct (pkey self) as [k|] eqn:Hk.
  - intros Hr. unfold _pkey_auth, bind. rewrite Hk. cbn [fmt_s].
    rewrite key_call by (apply reports_settles, Hr).
    unfold key_ok. destruct (key_result E k) as [v|e]; cbn [answer fst snd].
    + eexists; eexists. split; [reflexivity|]. simpl. rewrite trace_settled.
      repeat split; auto. discriminate.
    + destruct e; try discriminate Hr.
      eexists; eexists. split; [reflexivity|]. simpl. rewrite trace_settled.
      repeat split; auto; [discriminate|].
      intros _. eexists. split; [reflexivity|left; reflexivity].
  - intros Hc. apply andb_true_iff in Hc as [Hc Hpw]. apply andb_true_iff in Hc as [Hag Hids].
    destruct (allow_agent self); cbn [negb orb andb] in *.
    + unfold agent_auth, agent_ok.
      pose proof (@fallback_chain (log (EAgentAuth (user self)) w) Hids Hpw) as Hf.
      destruct (agent_result E) as [v|e]; cbn [answer].
      * eexists; eexists. split; [reflexivity|]. repeat split; auto. discriminate.
      * destruct (identity_scan (isfile E) (IDENTITIES E)) as [ids ok].
        destruct (if ok then (ids, true) else _) as [evs good] eqn:Hg.
        destruct Hf as [r [w' [Ha [Hb [Hc Hd]]]]].
        assert (Hres : (if ok then ([EAgentAuth (user self)] ++ ids, true)
                        else match password self with
                             | Some p => ([EAgentAuth (user self)] ++ ids ++ [EPassword (user self) p], password_ok)
                             | None => ([EAgentAuth (user self)] ++ ids, false)
                             end) = ([EAgentAuth (user self)] ++ evs, good)).
        { destruct ok; [injection Hg as <- <-; reflexivity|].
          destruct (password self); injection Hg as <- <-; reflexivity. }
        rewrite Hres. cbn [fst snd].
        destruct e; try discriminate Hag; exists r, w';
          (split; [exact Ha|]); (split; [rewrite Hb; simpl; rewrite <- app_assoc; reflexivity|]);
          split; assumption.
    + pose proof (@fallback_chain w Hids Hpw) as Hf.
      destruct (identity_scan (isfile E) (IDENTITIES E)) as [ids ok].
      destruct (if ok then (ids, true) else _) as [evs good] eqn:Hg.
      assert (Hres : (if ok then ([] ++ ids, true)
                      else match password self with
                           | Some p => ([] ++ ids ++ [EPassword (user self) p], password_ok)
                           | None => ([] ++ ids, false)
                           end) = (evs, good)).
      { destruct ok; [injection Hg as <- <-; reflexivity|].
        destruct (password self); injection Hg as <- <-; reflexivity. }
      rewrite Hres. exact Hf.
Qed.

(** [_init] turns the failure of the chain into the client's own
    [AuthenticationException]. *)
Lemma init_chain (w : world) (v : value) :
  engine_contract = true ->
  handshake_result E = Returns v ->
  exists r w',
    _init E self w = Some (r, w')
    /\ (snd chain = true -> r = Ok tt)
    /\ (snd chain = false -> exists e, r = Raise e /\ is_AuthenticationException e = true).
Proof.
  intros Hc Hh. unfold _init, bind, try_except, handshake. rewrite Hh. cbn [answer].
  destruct (@auth_chain (log EHandshake w) Hc) as [r [w' [Ha [_ [Hok Hfail]]]]].
  unfold ret. cbv beta iota. rewrite Ha. destruct (snd chain).
  - rewrite (Hok eq_refl). exists (Ok tt), w'. repeat split; auto. discriminate.
  - destruct (Hfail eq_refl) as [e [-> [He|He]]].
    + subst e. eexists; eexists. split; [reflexivity|]. split; [discriminate|].
      intros _. eexists. split; reflexivity.
    + destruct e; try discriminate He;
        (eexists; eexists; split; [reflexivity|]; split; [discriminate|]);
        intros _; eexists; split; reflexivity.
Qed.

(** The fallback scenario: the agent fails, the first identity file
    fails, the second succeeds. *)
Lemma scenario_chain :
  pkey self = None -> allow_agent self = true -> agent_ok = false ->
  isfile E (home E ++ "/.ssh/id_rsa") = true -> key_ok (home E ++ "/.ssh/id_rsa") = false ->
  isfile E (home E ++ "/.ssh/id_dsa") = true -> key_ok (home E ++ "/.ssh/id_dsa") = true ->
  chain = ([EAgentAuth (user self);
            key_attempt (home E ++ "/.ssh/id_rsa");
            key_attempt (home E ++ "/.ssh/id_dsa")], true).
Proof.
  intros Hk Ha Hag H1 H1' H2 H2'. unfold chain, chain_of, IDENTITIES. rewrite Hk, Ha, Hag.
  cbn [andb identity_scan]. rewrite H1, H1', H2, H2'. reflexivity.
Qed.

End Chain.

(** C4, as the code has it: the chain attempts the credential methods in
    the fixed order, the explicit key alone when one is configured, else
    the agent when allowed, then the identity candidates that are files on
    the local host, in order, up to the first that succeeds (a candidate
    that is not a file is passed over without an attempt), then the password
    when one was supplied and every public key failed; it returns when one
    succeeds and otherwise fails with an authentication failure, which
    [_init] raises as [AuthenticationException].  When the agent fails, the
    first identity file fails and the second succeeds, the attempts are the
    agent, the first and the second identity file, and no password.  The
    engine is one that reports a failed attempt by raising and does not
    answer would-block for ever. *)
Theorem auth_chain_order (E : mock) (self : SSHClient) (w : world) :
  engine_contract E self = true ->
  exists r w',
    auth E self w = Some (r, w')
    /\ trace w' = trace w ++ fst (chain E self)
    /\ (snd (chain E self) = true -> r = Ok tt)
    /\ (snd (chain E self) = false ->
        (exists e, r = Raise e /\ authentication_failure e)
        /\ forall v w0, handshake_result E = Returns v ->
             exists e w0', _init E self w0 = Some (Raise e, w0')
                           /\ is_AuthenticationException e = true)
    /\ (pkey self = None -> allow_agent self = true -> agent_ok E = false ->
        isfile E (home E ++ "/.ssh/id_rsa") = true ->
        key_ok E (home E ++ "/.ssh/id_rsa") = false ->
        isfile E (home E ++ "/.ssh/id_dsa") = true ->
        key_ok E (home E ++ "/.ssh/id_dsa") = true ->
        r = Ok tt
        /\ trace w' = trace w ++ [EAgentAuth (user self);
                                  key_attempt self (home E ++ "/.ssh/id_rsa");
                                  key_attempt self (home E ++ "/.ssh/id_dsa")]).
Proof.
  intros Hc. destruct (@auth_chain E self w Hc) as [r [w' [Ha [Ht [Hok Hfail]]]]].
  exists r, w'. split; [exact Ha|]. split; [exact Ht|]. split; [exact Hok|]. split.
  - intros Hf. split; [exact (Hfail Hf)|].
    intros v w0 Hh. destruct (@init_chain E self w0 v Hc Hh) as [r0 [w0' [Hi [_ Hif]]]].
    destruct (Hif Hf) as [e [-> He]]. exists e, w0'. split; assumption.
  - intros H1 H2 H3 H4 H5 H6 H7.
    pose proof (@scenario_chain E self H1 H2 H3 H4 H5 H6 H7) as Hs.
    rewrite Hs in Ht, Hok. split; [apply Hok; reflexivity|exact Ht].
Qed.

(** The engine of the fallback scenario: the agent fails, the DSA identity
    is the only key the server accepts. *)
Definition fallback_engine : mock :=
  {| connect_result := fun _ => None;
     handshake_result := Returns (VInt 0);
     agent_result := Raises AgentError;
     key_result := fun f => if String.eqb f "/home/u/.ssh/id_dsa"
                            then Returns (VInt 0) else Raises AuthenticationError;
     password_result := Returns (VInt 0);
     home := "/home/u";
     isfile := fun _ => true;
     local_isdir := fun _ => false;
     local_listdir := fun _ => [];
     remote_cwd := "/home/u";
     mkdir_denied := fun _ => false;
     chunk_size := 4 |}.

Definition fallback_client : SSHClient :=
  {| host := "server"; user := "u"; password := Some "secret"%string; port := 22;
     pkey := None; num_retries := 3; allow_agent := true |}.

Definition fresh : world :=
  {| blocks := []; errno := 0; trace := [];
     rdirs := ["/home/u"%string; "/tmp"%string]; rfiles := []; lfiles := [] |}.

(** The same engine on a host that has no RSA identity file. *)
Definition no_rsa_engine : mock :=
  {| connect_result := connect_result fallback_engine;
     handshake_result := handshake_result fallback_engine;
     agent_result := agent_result fallback_engine;
     key_result := key_result fallback_engine;
     password_result := password_result fallback_engine;
     home := home fallback_engine;
     isfile := fun f => negb (String.eqb f "/home/u/.ssh/id_rsa");
     local_isdir := local_isdir fallback_engine;
     local_listdir := local_listdir fallback_engine;
     remote_cwd := remote_cwd fallback_engine;
     mkdir_denied := mkdir_denied fallback_engine;
     chunk_size := chunk_size fallback_engine |}.

(** C4 as stated fails: with every candidate of the identity list attempted
    in order the attempts would be the agent, the RSA and the DSA identity;
    on a host without the RSA identity file the code attempts the agent and
    the DSA identity only. *)
Lemma missing_identity_file_not_attempted :
  exists w',
    auth no_rsa_engine fallback_client fresh = Some (Ok tt, w')
    /\ trace w' = [EAgentAuth "u";
                   EPublickeyFromfile "u" "/home/u/.ssh/id_dsa.pub" "/home/u/.ssh/id_dsa" "secret"]
    /\ fst (stated_chain no_rsa_engine fallback_client)
       = [EAgentAuth "u";
          EPublickeyFromfile "u" "/home/u/.ssh/id_rsa.pub" "/home/u/.ssh/id_rsa" "secret";
          EPublickeyFromfile "u" "/home/u/.ssh/id_dsa.pub" "/home/u/.ssh/id_dsa" "secret"]
    /\ trace w' <> trace fresh ++ fst (stated_chain no_rsa_engine fallback_client).
Proof.
  eexists. split; [vm_compute; reflexivity|]. split; [reflexivity|].
  split; [reflexivity|]. vm_compute. discriminate.
Qed.

Lemma auth_chain_order_witness :
  engine_contract fallback_engine fallback_client = true
  /\ exists w',
       auth fallback_engine fallback_client fresh = Some (Ok tt, w')
       /\ trace w' = [EAgentAuth "u";
                      EPublickeyFromfile "u" "/home/u/.ssh/id_rsa.pub" "/home/u/.ssh/id_rsa" "secret";
                      EPublickeyFromfile "u" "/home/u/.ssh/id_dsa.pub" "/home/u/.ssh/id_dsa" "secret"].
Proof.
  split; [reflexivity|].
  destruct (@auth_chain_order fallback_engine fallback_client fresh eq_refl)
    as [r [w' [Ha [_ [_ [_ Hs]]]]]].
  destruct (Hs eq_refl eq_refl eq_refl eq_refl eq_refl eq_refl eq_refl) as [Hr Ht].
  exists w'. rewrite Hr in Ha. split; [exact Ha|exact Ht].
Defined.

End AuthFacts.

(** ** Transport establisher *)

Module ConnectFacts.

Import AuthFacts.

Section Connect.

Variable E : mock.
Variable self : SSHClient.

Definition attempt (w : world) : world := log (EConnect (host self) (port self)) w.

Lemma connects_attempt (w : world) : connects (attempt w) = S (connects w).
Proof.
  unfold connects, attempt. simpl. rewrite filter_app, length_app. simpl. lia.
Qed.

Lemma connects_sleep (secs : Z) (w : world) : connects (sleep secs w) = connects w.
Proof.
  unfold connects, sleep. simpl. rewrite filter_app, length_app. simpl. lia.
Qed.

Lemma connect_succeeds (retries : Z) (w : world) :
  connect_result E (connects w) = None ->
  _connect E self retries w = Some (Ok tt, attempt w).
Proof.
  intros H. rewrite _connect_equation_1. unfold sock_connect. rewrite H. reflexivity.
Qed.

Lemma connect_retries (retries : Z) (w : world) (args : list atom) :
  connect_result E (connects w) = Some args ->
  retries < num_retries self ->
  _connect E self retries w = _connect E self (retries + 1) (sleep 5 (attempt w)).
Proof.
  intros H Hlt. rewrite _connect_equation_1. unfold sock_connect. rewrite H.
  cbn [_connect_unfold_clause_1]. unfold _connect_unfold_clause_1_clause_2.
  destruct (Z_lt_dec retries (num_retries self)); [reflexivity|contradiction].
Qed.

(** The failure [_connect] raises once the retries are used up. *)
Definition gives_up (retries : Z) (args : list atom) : result unit :=
  match error_type args with
  | Some t => Raise (ConnectionErrorException connect_msg (host self) (port self)
                       (str t) retries (num_retries self))
  | None => Raise IndexError
  end.

Lemma connect_gives_up (retries : Z) (w : world) (args : list atom) :
  connect_result E (connects w) = Some args ->
  ~ retries < num_retries self ->
  _connect E self retries w = Some (gives_up retries args, attempt w).
Proof.
  intros H Hge. rewrite _connect_equation_1. unfold sock_connect. rewrite H.
  cbn [_connect_unfold_clause_1]. unfold _connect_unfold_clause_1_clause_2.
  destruct (Z_lt_dec retries (num_retries self)); [contradiction|].
  unfold _connect_unfold_clause_1_clause_2_clause_2, gives_up.
  destruct (error_type args); reflexivity.
Qed.

(** [k] failed attempts, then one that connects. *)
Lemma connect_after_failures (k : nat) :
  forall (retries : Z) (w : world),
    (forall i, (i < k)%nat -> connect_result E (connects w + i) <> None) ->
    connect_result E (connects w + k) = None ->
    retries + Z.of_nat k <= num_retries self ->
    exists w', _connect E self retries w = Some (Ok tt, w')
               /\ connects w' = (connects w + k + 1)%nat.
Proof.
  induction k as [|k IH]; intros retries w Hfail Hok Hle.
  - rewrite Nat.add_0_r in Hok. rewrite (connect_succeeds retries w Hok).
    eexists. split; [reflexivity|]. rewrite connects_attempt. lia.
  - destruct (connect_result E (connects w)) as [args|] eqn:H0.
    2:{ exfalso. apply (Hfail O); [lia|]. rewrite Nat.add_0_r. exact H0. }
    rewrite (connect_retries w H0) by lia.
    destruct (IH (retries + 1) (sleep 5 (attempt w))) as [w' [H1 H2]].
    + intros i Hi. rewrite connects_sleep, connects_attempt.
      replace (S (connects w) + i)%nat with (connects w + S i)%nat by lia.
      apply Hfail. lia.
    + rewrite connects_sleep, connects_attempt.
      replace (S (connects w) + k)%nat with (connects w + S k)%nat by lia. exact Hok.
    + lia.
    + exists w'. split; [exact H1|]. rewrite H2, connects_sleep, connects_attempt. lia.
Qed.

(** [k + 1] failed attempts, the last of them with the retries used up. *)
Lemma connect_exhausted (k : nat) :
  forall (retries : Z) (w : world) (args : list atom),
    (forall i, (i <= k)%nat -> connect_result E (connects w + i) <> None) ->
    connect_result E (connects w + k) = Some args ->
    retries + Z.of_nat k = num_retries self ->
    exists w', _connect E self retries w = Some (gives_up (num_retries self) args, w')
               /\ connects w' = (connects w + k + 1)%nat.
Proof.
  induction k as [|k IH]; intros retries w args Hfail Hlast Hle.
  - rewrite Nat.add_0_r in Hlast. rewrite (connect_gives_up w Hlast) by lia.
    replace retries with (num_retries self) by lia.
    eexists. split; [reflexivity|]. rewrite connects_attempt. lia.
  - destruct (connect_result E (connects w)) as [args0|] eqn:H0.
    2:{ exfalso. apply (Hfail O); [lia|]. rewrite Nat.add_0_r. exact H0. }
    rewrite (connect_retries w H0) by lia.
    destruct (IH (retries + 1) (sleep 5 (attempt w)) args) as [w' [H1 H2]].
    + intros i Hi. rewrite connects_sleep, connects_attempt.
      replace (S (connects w) + i)%nat with (connects w + S i)%nat by lia.
      apply Hfail. lia.
    + rewrite connects_sleep, connects_attempt.
      replace (S (connects w) + k)%nat with (connects w + S k)%nat by lia. exact Hlast.
    + lia.
    + exists w'. split; [exact H1|]. rewrite H2, connects_sleep, connects_attempt. lia.
Qed.

End Connect.

(** C5, as the code has it: with [num_retries >= 1] the establisher makes at
    most [num_retries] connect attempts.  After [k] failed attempts, if
    [k < num_retries] and the next attempt connects it returns having made
    exactly [k + 1] attempts; if [k = num_retries] it has raised after
    exactly [num_retries] attempts a [ConnectionErrorException] that carries
    host, port, the attempt count, [num_retries], and of the last socket
    error the second argument when it has more than one (its message), else
    the first ([IndexError] is raised instead when it has none). *)
Theorem connect_bounded_retry (E : mock) (self : SSHClient) (w : world) (k : nat) :
  1 <= num_retries self ->
  (forall i, (i < k)%nat -> connect_result E (connects w + i) <> None) ->
  (Z.of_nat k < num_retries self ->
   connect_result E (connects w + k) = None ->
   exists w', _connect E self 1 w = Some (Ok tt, w')
              /\ connects w' = (connects w + k + 1)%nat)
  /\ (Z.of_nat k = num_retries self ->
      exists args w',
        connect_result E (connects w + k - 1) = Some args
        /\ _connect E self 1 w
           = Some (match error_type args with
                   | Some t => Raise (ConnectionErrorException connect_msg
                                        (host self) (port self) (str t)
                                        (num_retries self) (num_retries self))
                   | None => Raise IndexError
                   end, w')
        /\ connects w' = (connects w + k)%nat).
Proof.
  intros Hn Hfail. split.
  - intros Hk Hok. apply connect_after_failures; [exact Hfail|exact Hok|lia].
  - intros Hk. destruct k as [|k]; [simpl in Hk; lia|].
    destruct (connect_result E (connects w + k)) as [args|] eqn:Hlast.
    2:{ exfalso. apply (Hfail k); [lia|exact Hlast]. }
    destruct (@connect_exhausted E self k 1 w args) as [w' [H1 H2]].
    + intros i Hi. apply Hfail. lia.
    + exact Hlast.
    + lia.
    + exists args, w'. split.
      * replace (connects w + S k - 1)%nat with (connects w + k)%nat by lia. exact Hlast.
      * split; [exact H1|]. rewrite H2. lia.
Qed.

(** A transport whose first two connects are refused. *)
Definition flaky : mock :=
  {| connect_result := fun n => if (n <? 2)%nat
                                then Some [AInt 111; AStr "Connection refused"] else None;
     handshake_result := Returns (VInt 0);
     agent_result := Raises AgentError;
     key_result := fun _ => Raises AuthenticationError;
     password_result := Returns (VInt 0);
     home := "/home/u";
     isfile := fun _ => true;
     local_isdir := fun _ => false;
     local_listdir := fun _ => [];
     remote_cwd := "/home/u";
     mkdir_denied := fun _ => false;
     chunk_size := 4 |}.

Definition patient (n : Z) : SSHClient :=
  {| host := "server"; user := "u"; password := None; port := 22;
     pkey := None; num_retries := n; allow_agent := true |}.

Lemma connect_bounded_retry_witness :
  (exists w', _connect flaky (patient 3) 1 fresh = Some (Ok tt, w')
              /\ connects w' = 3%nat)
  /\ (exists args w',
        connect_result flaky 1 = Some args
        /\ _connect flaky (patient 2) 1 fresh
           = Some (match error_type args with
                   | Some t => Raise (ConnectionErrorException connect_msg
                                        "server" 22 (str t) 2 2)
                   | None => Raise IndexError
                   end, w')
        /\ connects w' = 2%nat).
Proof.
  split.
  - apply (proj1 (@connect_bounded_retry flaky (patient 3) fresh 2 ltac:(simpl; lia)
                    ltac:(intros [|[|i]] Hi; simpl; [discriminate|discriminate|lia])));
      [simpl; lia|reflexivity].
  - apply (proj2 (@connect_bounded_retry flaky (patient 2) fresh 2 ltac:(simpl; lia)
                    ltac:(intros [|[|i]] Hi; simpl; [discriminate|discriminate|lia])));
      reflexivity.
Defined.

(** C5 as stated fails: a connect refused with the operating system's
    error 111 ("Connection refused") ends, with [num_retries = 2], in an
    exception that carries the text "Connection refused" and not the error
    code 111. *)
Lemma connect_error_carries_message_not_code :
  option_map fst (_connect flaky (patient 2) 1 fresh)
  = Some (Raise (ConnectionErrorException connect_msg "server" 22 "Connection refused" 2 2))
  /\ option_map fst (_connect flaky (patient 2) 1 fresh)
     <> Some (Raise (ConnectionErrorException connect_msg "server" 22 (str (AInt 111)) 2 2)).
Proof. split; [vm_compute; reflexivity|vm_compute; discriminate]. Qed.

End ConnectFacts.

(** ** Command executor *)

Module CommandFacts.

Import PumpFacts AuthFacts.

(** The composition rule in the words of the specification. *)
Definition prefix (sudo : bool) (user : option string) : string :=
  match user with
  | Some (String c u) => "sudo -u " ++ String c u ++ " -S "
  | _ => if sudo then "sudo -S " else ""
  end.

Definition wrapped (shell : option string) (command : string) : string :=
  match shell with
  | Some (String c sh) => String c sh ++ " " ++ dquote ++ command ++ dquote
  | _ => "$SHELL -c " ++ dquote ++ command ++ dquote
  end.

Definition composed (command : string) (sudo : bool) (user shell : option string) : string :=
  if negb sudo && negb (otruthy user) && negb (otruthy shell) then command
  else prefix sudo user ++ wrapped shell command.

Lemma definitive_rc (z : Z) :
  z <> LIBSSH2_ERROR_EAGAIN -> definitive (fun w : world => (Ok (VInt z), w)).
Proof.
  intros Hz w r w' H. injection H as <- _. simpl. apply Z.eqb_neq. exact Hz.
Qed.

(** C9: the command string handed to the channel is the command itself when
    none of sudo, user and shell is requested, and otherwise the prefix
    ("sudo -u <user> -S " for a user, "sudo -S " for sudo without a user)
    followed by [<shell> "<command>"] for a shell override and
    [$SHELL -c "<command>"] without one; an argument that is absent or
    empty counts as not requested. *)
Theorem command_composition (self : SSHClient) (command : string) (sudo : bool)
  (user shell : option string) (use_pty : bool) (w : world) :
  _command command sudo user shell = composed command sudo user shell
  /\ exists w',
       run_command self command sudo user use_pty shell w
       = Some (Ok (VChannel, host self), w')
       /\ trace w' = trace w ++ [EOpenSession] ++ (if use_pty then [EPty] else [])
                             ++ [EExecute (composed command sudo user shell)].
Proof.
  assert (Hc : _command command sudo user shell = composed command sudo user shell).
  { unfold _command, composed, prefix, wrapped.
    destruct sudo, user as [[|c u]|], shell as [[|c' sh]|]; reflexivity. }
  split; [exact Hc|]. rewrite <- Hc.
  unfold run_command, execute, bind, open_session, ret.
  unfold channel_execute, channel_pty.
  destruct use_pty.
  - rewrite eagain_engine_call by (apply definitive_rc; discriminate).
    rewrite eagain_engine_call by (apply definitive_rc; discriminate).
    eexists. split; [reflexivity|].
    repeat first [rewrite trace_settled | progress cbn [trace log]].
    rewrite <- !app_assoc. reflexivity.
  - rewrite eagain_engine_call by (apply definitive_rc; discriminate).
    eexists. split; [reflexivity|].
    repeat first [rewrite trace_settled | progress cbn [trace log]].
    rewrite <- !app_assoc. reflexivity.
Qed.

End CommandFacts.

(** ** SFTP transfer: the mkdir chain *)

Module MkdirFacts.

Import PumpFacts AuthFacts.

Lemma mkdir_unfold E self sftp directory parent_path :
  mkdir E self sftp directory parent_path =
  match split_1 directory with
  | (_parent_path, None) =>
      stat_or E sftp (under parent_path _parent_path)
        (_mkdir E self sftp (under parent_path _parent_path))
  | (_parent_path, Some sub_dirs) =>
      bind (stat_or E sftp (under parent_path _parent_path)
              (_mkdir E self sftp (under parent_path _parent_path)))
        (fun _ => mkdir E self sftp sub_dirs (Some (under parent_path _parent_path)))
  end.
Proof.
  rewrite mkdir_equation_1.
  change (split_1 directory) with (proj1_sig (inspect (split_1 directory))) at 2.
  destruct (inspect (split_1 directory)) as [[h [r|]] e]; reflexivity.
Qed.

Lemma split_split_1 (s : string) :
  split s = match split_1 s with
            | (h, None) => [h]
            | (h, Some r) => h :: split r
            end.
Proof.
  induction s as [|c s IH]; [reflexivity|]. simpl.
  destruct (Ascii.eqb c "/"); [reflexivity|].
  rewrite IH. destruct (split_1 s) as [h [r|]]; reflexivity.
Qed.

(** Permissions of a created directory: owner rwx, group and other rx. *)
Definition dir_mode : Z := 493.

Section Chain.

Variable E : mock.
Variable self : SSHClient.

(** *** The chain in the words of the specification *)

(** The paths the chain visits: the path cut at each separator, under the
    parent prefix. *)
Fixpoint prefixes (parent_path : option string) (parts : list string) : list string :=
  match parts with
  | [] => []
  | p :: rest => under parent_path p :: prefixes (Some (under parent_path p)) rest
  end.

Definition segments (directory : string) (parent_path : option string) : list string :=
  prefixes parent_path (split directory).

Definition mkdir_failed (directory : string) : exn :=
  SFTPIOError_at "Error occured creating directory %s on host %s - %s"
    directory (host self) SFTPIOError_ssh2.

(** Left to right, every segment is probed; one whose probe succeeds is
    left alone, one whose probe fails is created, and a creation the server
    refuses ends the chain with an error. *)
Fixpoint create_missing (segs : list string) (w : world) : result unit * world :=
  match segs with
  | [] => (Ok tt, w)
  | s :: rest =>
      let w1 := log (EStat s) (settled w) in
      if remote_exists E w1 s then create_missing rest w1
      else
        let w2 := log (EMkdir s dir_mode)
                    (settled (set_errno LIBSSH2_ERROR_SFTP_PROTOCOL w1)) in
        if can_mkdir E w2 s
        then create_missing rest (set_rdirs (rdirs w2 ++ [resolve E s]) w2)
        else (Raise (mkdir_failed s), set_errno LIBSSH2_ERROR_SFTP_PROTOCOL w2)
  end.

(** *** The code against it *)

Lemma definitive_stat (path : string) :
  definitive (fun w => if remote_exists E w path then (Ok VAttrs, w)
                       else failed SFTPHandleError w).
Proof.
  intros w r w' H. destruct (remote_exists E w path); [|discriminate].
  injection H as <- _. reflexivity.
Qed.

Lemma definitive_mkdir (path : string) :
  definitive (fun w => if can_mkdir E w path
                       then (Ok (VInt 0), set_rdirs (rdirs w ++ [resolve E path]) w)
                       else failed SFTPIOError_ssh2 w).
Proof.
  intros w r w' H. destruct (can_mkdir E w path); [|discriminate].
  injection H as <- _. reflexivity.
Qed.

Lemma stat_or_run (sftp : value) (path : string) (otherwise : M unit) (w : world) :
  stat_or E sftp path otherwise w
  = let w1 := log (EStat path) (settled w) in
    if remote_exists E w1 path then Some (Ok tt, w1)
    else otherwise (set_errno LIBSSH2_ERROR_SFTP_PROTOCOL w1).
Proof.
  unfold stat_or, try_except, bind, sftp_stat.
  rewrite eagain_engine_call by apply definitive_stat.
  cbv zeta. destruct (remote_exists E (log (EStat path) (settled w)) path); reflexivity.
Qed.

Lemma _mkdir_run (sftp : value) (directory : string) (w : world) :
  _mkdir E self sftp directory w
  = let w2 := log (EMkdir directory dir_mode) (settled w) in
    if can_mkdir E w2 directory
    then Some (Ok tt, set_rdirs (rdirs w2 ++ [resolve E directory]) w2)
    else Some (Raise (mkdir_failed directory), set_errno LIBSSH2_ERROR_SFTP_PROTOCOL w2).
Proof.
  unfold _mkdir, try_except, bind, sftp_mkdir.
  rewrite eagain_engine_call by apply definitive_mkdir.
  cbv zeta. change (Z.lor _ _) with dir_mode.
  destruct (can_mkdir E (log (EMkdir directory dir_mode) (settled w)) directory); reflexivity.
Qed.

Lemma mkdir_refines (n : nat) :
  forall (sftp : value) (directory : string) (parent_path : option string) (w : world),
    (String.length directory <= n)%nat ->
    mkdir E self sftp directory parent_path w
    = Some (create_missing (segments directory parent_path) w).
Proof.
  induction n as [|n IH]; intros sftp directory parent_path w Hn;
    rewrite mkdir_unfold; unfold segments; rewrite split_split_1;
    destruct (split_1 directory) as [h [r|]] eqn:Hs.
  - apply split_1_shorter in Hs. lia.
  - cbn [prefixes create_missing]. rewrite stat_or_run. cbv zeta.
    destruct (remote_exists E _ _); [reflexivity|].
    rewrite _mkdir_run. cbv zeta. destruct (can_mkdir E _ _); reflexivity.
  - pose proof (split_1_shorter _ Hs) as Hr.
    cbn [prefixes create_missing]. unfold bind. rewrite stat_or_run. cbv zeta.
    destruct (remote_exists E _ _).
    + apply IH. lia.
    + rewrite _mkdir_run. cbv zeta. destruct (can_mkdir E _ _); [|reflexivity].
      apply IH. lia.
  - cbn [prefixes create_missing]. rewrite stat_or_run. cbv zeta.
    destruct (remote_exists E _ _); [reflexivity|].
    rewrite _mkdir_run. cbv zeta. destruct (can_mkdir E _ _); reflexivity.
Qed.


(** *** Running the chain again *)

Lemma rdirs_settled (w : world) : rdirs (settled w) = rdirs w.
Proof. apply rdirs_ready. Qed.

Lemma rfiles_settled (w : world) : rfiles (settled w) = rfiles w.
Proof. apply rfiles_ready. Qed.

Lemma remote_exists_mono (w w' : world) (p : string) :
  rfiles w' = rfiles w ->
  (forall q, mem q (rdirs w) = true -> mem q (rdirs w') = true) ->
  remote_exists E w p = true -> remote_exists E w' p = true.
Proof.
  unfold remote_exists, is_file. intros Hf Hd H. rewrite Hf.
  apply orb_true_iff in H as [H|H]; apply orb_true_iff; [left; apply Hd; exact H|right; exact H].
Qed.

Lemma mem_snoc (x : string) (l : list string) : mem x (l ++ [x]) = true.
Proof.
  unfold mem. rewrite existsb_app. simpl. rewrite String.eqb_refl, orb_true_r. reflexivity.
Qed.

Lemma mem_app_l (q x : string) (l : list string) : mem q l = true -> mem q (l ++ [x]) = true.
Proof. unfold mem. rewrite existsb_app. intros ->. reflexivity. Qed.

Lemma create_missing_ok (segs : list string) :
  forall w w',
    create_missing segs w = (Ok tt, w') ->
    rfiles w' = rfiles w
    /\ (forall q, mem q (rdirs w) = true -> mem q (rdirs w') = true)
    /\ Forall (fun s => remote_exists E w' s = true) segs.
Proof.
  induction segs as [|s rest IH]; intros w w' H.
  - injection H as <-. repeat split; auto.
  - cbn [create_missing] in H. cbv zeta in H.
    destruct (remote_exists E (log (EStat s) (settled w)) s) eqn:Hex.
    + destruct (IH _ _ H) as [Hf [Hd Hall]]. cbn [rfiles rdirs log] in Hf, Hd.
      rewrite rfiles_settled in Hf. rewrite rdirs_settled in Hd.
      split; [exact Hf|]. split; [exact Hd|]. constructor; [|exact Hall].
      apply (@remote_exists_mono (log (EStat s) (settled w)) w' s); auto.
      * cbn [rfiles log]. rewrite rfiles_settled. exact Hf.
      * cbn [rdirs log]. rewrite rdirs_settled. exact Hd.
    + destruct (can_mkdir E _ s) eqn:Hcan; [|discriminate].
      destruct (IH _ _ H) as [Hf [Hd Hall]].
      cbn [rfiles rdirs log set_rdirs set_errno] in Hf, Hd.
      rewrite rfiles_settled in Hf. cbn [rfiles rdirs log set_rdirs set_errno] in Hf.
      rewrite rfiles_settled in Hf.
      rewrite rdirs_settled in Hd. cbn [rfiles rdirs log set_rdirs set_errno] in Hd.
      rewrite rdirs_settled in Hd.
      split; [exact Hf|]. split.
      * intros q Hq. apply Hd. apply mem_app_l. exact Hq.
      * constructor; [|exact Hall].
        unfold remote_exists. apply orb_true_iff. left. apply Hd. apply mem_snoc.
Qed.

Lemma create_missing_existing (segs : list string) :
  forall w,
    Forall (fun s => remote_exists E w s = true) segs ->
    exists w',
      create_missing segs w = (Ok tt, w')
      /\ rdirs w' = rdirs w /\ rfiles w' = rfiles w
      /\ trace w' = trace w ++ map EStat segs.
Proof.
  induction segs as [|s rest IH]; intros w Hall.
  - exists w. simpl. rewrite app_nil_r. repeat split; reflexivity.
  - inversion Hall as [|? ? Hs Hrest]; subst.
    assert (Hsame : forall p, remote_exists E (log (EStat s) (settled w)) p = remote_exists E w p).
    { intros p. unfold remote_exists, is_file. cbn [rdirs rfiles log].
      rewrite rdirs_settled, rfiles_settled. reflexivity. }
    cbn [create_missing]. cbv zeta. rewrite Hsame, Hs.
    destruct (IH (log (EStat s) (settled w))) as [w' [H1 [H2 [H3 H4]]]].
    + eapply Forall_impl; [|exact Hrest]. intros p Hp. simpl. rewrite Hsame. exact Hp.
    + exists w'. split; [exact H1|]. cbn [rdirs rfiles trace log] in *.
      rewrite rdirs_settled in H2. rewrite rfiles_settled in H3. rewrite trace_settled in H4.
      repeat split; auto. rewrite H4, <- app_assoc. reflexivity.
Qed.

End Chain.

(** C7: the mkdir chain probes the segments of the path left to right and
    creates exactly those whose probe fails, none whose probe succeeds; run
    again on the state a first run ended in without error, it raises no
    error, creates nothing and leaves the remote directories as they are:
    its calls are the probes alone. *)
Theorem mkdir_chain_idempotent (E : mock) (self : SSHClient) (sftp : value)
  (directory : string) (parent_path : option string) (w : world) :
  mkdir E self sftp directory parent_path w
  = Some (create_missing E self (segments directory parent_path) w)
  /\ forall w1,
       mkdir E self sftp directory parent_path w = Some (Ok tt, w1) ->
       exists w2,
         mkdir E self sftp directory parent_path w1 = Some (Ok tt, w2)
         /\ rdirs w2 = rdirs w1
         /\ trace w2 = trace w1 ++ map EStat (segments directory parent_path).
Proof.
  split; [apply (@mkdir_refines E self (String.length directory)); lia|].
  intros w1 H1.
  rewrite (@mkdir_refines E self (String.length directory)) in H1 by lia.
  injection H1 as H1. apply create_missing_ok in H1 as [_ [_ Hall]].
  destruct (@create_missing_existing E self _ w1 Hall) as [w2 [H2 [H3 [_ H4]]]].
  exists w2. rewrite (@mkdir_refines E self (String.length directory)) by lia.
  rewrite H2. repeat split; assumption.
Qed.

Lemma mkdir_chain_idempotent_witness :
  exists w1,
    (mkdir fallback_engine fallback_client VSftp "x/y/z" None fresh = Some (Ok tt, w1)
     /\ trace w1 = [EStat "x"; EMkdir "x" 493; EStat "x/y"; EMkdir "x/y" 493;
                    EStat "x/y/z"; EMkdir "x/y/z" 493])
    /\ exists w2,
         mkdir fallback_engine fallback_client VSftp "x/y/z" None w1 = Some (Ok tt, w2)
         /\ rdirs w2 = rdirs w1
         /\ trace w2 = trace w1 ++ map EStat (segments "x/y/z" None).
Proof.
  eexists. split; [split; [vm_compute; reflexivity|reflexivity]|].
  apply (proj2 (@mkdir_chain_idempotent fallback_engine fallback_client VSftp
                  "x/y/z" None fresh)).
  vm_compute. reflexivity.
Defined.

End MkdirFacts.

(** ** SFTP transfer: handles, put and get *)

Module TransferFacts.

Import Demux DemuxFacts AuthFacts.

Definition open_failed (remote_file : string) (errno : Z) : exn :=
  SFTPError "Error opening file handle for file %s - error no: %s" remote_file errno.

(** C3 (fails on the code): when the open call returns a handle and
    [last_errno] is then anything but the would-block code, as it is after
    an open that never blocked, [_sftp_openfh] does not return the handle:
    it raises [SFTPError] with the remote path and that error number. *)
Theorem openfh_raises_despite_handle (open_func : M (option handle))
  (remote_file : string) (w w1 : world) (fh : handle) :
  open_func w = Some (Ok (Some fh), w1) ->
  errno w1 <> LIBSSH2_ERROR_EAGAIN ->
  _sftp_openfh open_func remote_file w
  = Some (Raise (open_failed remote_file (errno w1)), w1).
Proof.
  intros Ho He. unfold _sftp_openfh, bind, last_errno, ret. rewrite Ho.
  unfold patience. cbn [retry_while].
  unfold ret. cbv beta iota. apply Z.eqb_neq in He. rewrite He. reflexivity.
Qed.

Definition put_flags : Z := 26.
Definition put_mode : Z := 420.

Lemma openfh_raises_despite_handle_witness :
  exists w1,
    sftp_open fallback_engine "b.txt" put_flags put_mode fresh
    = Some (Ok (Some "/home/u/b.txt"%string), w1)
    /\ errno w1 = 0
    /\ _sftp_openfh (sftp_open fallback_engine "b.txt" put_flags put_mode) "b.txt" fresh
       = Some (Raise (open_failed "b.txt" 0), w1).
Proof.
  eexists. split; [reflexivity|]. split; [reflexivity|].
  apply (@openfh_raises_despite_handle
           (sftp_open fallback_engine "b.txt" put_flags put_mode) "b.txt" fresh _
           "/home/u/b.txt"%string eq_refl).
  simpl. discriminate.
Defined.

(** The local host of the transfer scenarios: one file, "f", holding
    "abc". *)
Definition uploader (bs : list bool) : world :=
  {| blocks := bs; errno := 0; trace := [];
     rdirs := ["/home/u"%string; "/tmp"%string]; rfiles := [];
     lfiles := [("f"%string, b "abc")] |}.

(** C6 (fails on the code): for the absolute destination "/tmp/a/b.txt"
    the parent that is probed and created is the relative path "tmp/a",
    under the directory relative paths start from, and not "/tmp/a": when
    the write handle is opened the directory that is to hold the file does
    not exist, and the open fails.  For the relative destination "a/b.txt"
    the parent created is the one the file is opened in. *)
Theorem absolute_destination_parent_not_created :
  _remote_paths_split "/tmp/a/b.txt" = "tmp/a"%string
  /\ (exists w',
        copy_file fallback_engine fallback_client 0 "f" "/tmp/a/b.txt" false None
          (uploader [false; false; false; false; false; false; true])
        = Some (Raise (open_failed "/tmp/a/b.txt" LIBSSH2_ERROR_SFTP_PROTOCOL), w')
        /\ trace w' = [ESftpInit; EStat "tmp/a"; EStat "tmp"; EMkdir "tmp" 493;
                       EStat "tmp/a"; EMkdir "tmp/a" 493; EOpen "/tmp/a/b.txt" 26 420]
        /\ rdirs w' = ["/home/u"; "/tmp"; "/home/u/tmp"; "/home/u/tmp/a"]%string
        /\ rfiles w' = [])
  /\ (exists w',
        copy_file fallback_engine fallback_client 0 "f" "a/b.txt" false None
          (uploader [false; false; false; false; true])
        = Some (Ok tt, w')
        /\ trace w' = [ESftpInit; EStat "a"; EStat "a"; EMkdir "a" 493;
                       EOpen "a/b.txt" 26 420; EWrite "/home/u/a/b.txt" (b "abc")]
        /\ rdirs w' = ["/home/u"; "/tmp"; "/home/u/a"]%string
        /\ rfiles w' = [("/home/u/a/b.txt"%string, b "abc")]).
Proof.
  split; [reflexivity|]. split; eexists; (split; [vm_compute; reflexivity|]);
    repeat split; reflexivity.
Qed.

(** [put(local, remote)] then [get(remote, local2)]. *)
Definition round_trip (E : mock) (local_file remote_file local_file2 : string) : M unit :=
  bind (sftp_put E VSftp local_file remote_file)
    (fun _ => sftp_get E VSftp remote_file local_file2).

(** C8 (fails on the code): over an engine that raises no error the round
    trip does not give the content back.  When no call blocks, the open of
    [put] returns its handle with [last_errno] 0 and [put] raises
    [SFTPError]; a [get] after it raises the same way and leaves the local
    copy empty.  When the open blocks once and the write blocks once, [put]
    and [get] both return and the local copy is empty: the write that
    answered would-block is not repeated.  Only when the open blocks and the
    write does not is the copy equal to the original. *)
Theorem round_trip_loses_content :
  (exists w',
     round_trip fallback_engine "f" "b.txt" "g" (uploader [])
     = Some (Raise (open_failed "b.txt" 0), w')
     /\ lookup "g" (lfiles w') = None
     /\ exists w'',
          sftp_get fallback_engine VSftp "b.txt" "g" w'
          = Some (Raise (open_failed "b.txt" 0), w'')
          /\ lookup "g" (lfiles w'') = Some [])
  /\ (exists w',
        round_trip fallback_engine "f" "b.txt" "g" (uploader [true; false; true])
        = Some (Ok tt, w')
        /\ lookup "f" (lfiles w') = Some (b "abc")
        /\ lookup "g" (lfiles w') = Some [])
  /\ (exists w',
        round_trip fallback_engine "f" "b.txt" "g" (uploader [true; false; false; true])
        = Some (Ok tt, w')
        /\ lookup "g" (lfiles w') = Some (b "abc")).
Proof.
  split; [|split].
  - eexists. split; [vm_compute; reflexivity|]. split; [reflexivity|].
    eexists. split; [vm_compute; reflexivity|reflexivity].
  - eexists. split; [vm_compute; reflexivity|]. split; reflexivity.
  - eexists. split; [vm_compute; reflexivity|]. reflexivity.
Qed.

(** An agent whose call answers would-block. *)
Definition blocking_agent : mock :=
  {| connect_result := fun _ => None;
     handshake_result := Returns (VInt 0);
     agent_result := Returns EAGAIN;
     key_result := fun _ => Raises AuthenticationError;
     password_result := Returns (VInt 0);
     home := "/home/u";
     isfile := fun _ => true;
     local_isdir := fun _ => false;
     local_listdir := fun _ => [];
     remote_cwd := "/home/u";
     mkdir_denied := fun _ => false;
     chunk_size := 4 |}.

(** C2 (fails on the code): a would-block is consumed by a retry only
    where the call goes through the pump or the first read loop.  The
    first read of [_read_output] is retried; a would-block returned by a
    later read ends the stream, and the lines that follow are lost; and
    the agent call is made once, its would-block taken for success. *)
Theorem would_block_not_always_retried :
  (forall rs, _read_output nl ((LIBSSH2_ERROR_EAGAIN, []) :: rs) = _read_output nl rs)
  /\ _read_output nl [(6, b "hello" ++ nl); (LIBSSH2_ERROR_EAGAIN, []); (6, b "world" ++ nl)]
     = [b "hello"]
  /\ _read_output nl [(6, b "hello" ++ nl); (6, b "world" ++ nl)]
     = [b "hello"; b "world"]
  /\ exists w',
       auth blocking_agent fallback_client fresh = Some (Ok tt, w')
       /\ trace w' = [EAgentAuth "u"].
Proof.
  split; [intros rs; reflexivity|].
  split; [vm_compute; reflexivity|].
  split; [vm_compute; reflexivity|].
  eexists. split; [vm_compute; reflexivity|reflexivity].
Qed.

End TransferFacts.

(** ** More on the pump and the loops built like it *)

Module LoopFacts.

Import PumpFacts AuthFacts.

Lemma errno_ready_blocked (bs : list bool) (w : world) :
  errno (ready (true :: bs) w) = LIBSSH2_ERROR_EAGAIN.
Proof.
  cbn [ready]. generalize (set_blocks bs w). clear w.
  induction bs as [|[|] bs IH]; intros w; cbn [ready]; [reflexivity|apply IH|reflexivity].
Qed.

(** A loop of the shape of the pump around an engine call: the call is
    repeated while it answers would-block, and the loop returns what the
    completed call returns or raises. *)
Lemma retry_call {A} (wb : A) (again : A -> bool) (ev : event)
  (complete : world -> result A * world) :
  again wb = true ->
  (forall w r w', complete w = (Ok r, w') -> again r = false) ->
  forall (bs : list bool) (w : world) (fuel : nat),
    blocks w = bs -> (List.length bs < fuel)%nat ->
    retry_while fuel again (engine_call wb ev complete) wb w
    = Some (complete (log ev (ready bs w))).
Proof.
  intros Hwb Hd. induction bs as [|[|] bs IH]; intros w fuel Hb Hf;
    (destruct fuel as [|fuel]; [simpl in Hf; lia|]);
    cbn [retry_while]; rewrite Hwb;
    unfold bind, wait_select, ret; unfold engine_call at 1; rewrite Hb; cbn [ready].
  - destruct (complete (log ev w)) as [[r|e] w'] eqn:Hc; [|reflexivity].
    apply Hd in Hc. destruct fuel; cbn [retry_while]; rewrite Hc; reflexivity.
  - apply IH; [reflexivity|simpl in Hf; lia].
  - destruct (complete (log ev (set_blocks bs w))) as [[r|e] w'] eqn:Hc; [|reflexivity].
    apply Hd in Hc. destruct fuel; cbn [retry_while]; rewrite Hc; reflexivity.
Qed.

Lemma first_call {A} (wb : A) (again : A -> bool) (ev : event)
  (complete : world -> result A * world) (w : world) :
  again wb = true ->
  (forall w r w', complete w = (Ok r, w') -> again r = false) ->
  bind (engine_call wb ev complete)
    (fun r w' => retry_while (patience w') again (engine_call wb ev complete) r w') w
  = Some (complete (log ev (settled w))).
Proof.
  intros Hwb Hd. unfold bind, settled. unfold engine_call at 1.
  destruct (blocks w) as [|[|] bs] eqn:Hb; cbn [ready].
  - destruct (complete (log ev w)) as [[r|e] w'] eqn:Hc; [|reflexivity].
    apply Hd in Hc. unfold patience. cbn [retry_while]. rewrite Hc. reflexivity.
  - apply retry_call; [exact Hwb|exact Hd|reflexivity|unfold patience; simpl; lia].
  - destruct (complete (log ev (set_blocks bs w))) as [[r|e] w'] eqn:Hc; [|reflexivity].
    apply Hd in Hc. unfold patience. cbn [retry_while]. rewrite Hc. reflexivity.
Qed.

(** X1: [_eagain] around an engine call returns what the call returns or
    raises once it completes, with every would-block consumed on the way:
    the caller never sees the would-block code, and the call is recorded
    once. *)
Theorem pump_hides_would_block (ev : event) (complete : world -> result value * world)
  (w : world) :
  definitive complete ->
  exists r w',
    _eagain (engine_call EAGAIN ev complete) w = Some (r, w')
    /\ complete (log ev (settled w)) = (r, w')
    /\ r <> Ok EAGAIN.
Proof.
  intros Hd. rewrite eagain_engine_call by exact Hd.
  destruct (complete (log ev (settled w))) as [r w'] eqn:Hc.
  exists r, w'. split; [reflexivity|]. split; [reflexivity|].
  intros ->. apply Hd in Hc. discriminate.
Qed.

Lemma pump_hides_would_block_witness :
  exists r w',
    _eagain (userauth_password fallback_engine "u" "secret")
      (set_blocks [true; true; false; true] fresh) = Some (r, w')
    /\ answer (password_result fallback_engine)
         (log (EPassword "u" "secret") (settled (set_blocks [true; true; false; true] fresh)))
       = (r, w')
    /\ r <> Ok EAGAIN.
Proof.
  apply (@pump_hides_would_block (EPassword "u" "secret")
           (answer (password_result fallback_engine))
           (set_blocks [true; true; false; true] fresh)).
  intros w r w' H. injection H as <- _. reflexivity.
Defined.

Lemma make_sftp_run (w : world) :
  _make_sftp w = Some (Ok VSftp, log ESftpInit (settled w)).
Proof.
  unfold _make_sftp, sftp_init.
  apply (@first_call value VNone (fun s => match s with VNone => true | _ => false end)
           ESftpInit (fun w0 => (Ok VSftp, w0)) w); [reflexivity|].
  intros w0 r w' H. injection H as <- _. reflexivity.
Qed.

(** X2: [_make_sftp] returns the SFTP object, never [None], whatever the
    schedule of would-blocks: the would-blocks of [sftp_init] are consumed,
    one [sftp_init] completes, and no file on either side is touched. *)
Theorem make_sftp_returns_object (w : world) :
  exists w',
    _make_sftp w = Some (Ok VSftp, w')
    /\ trace w' = trace w ++ [ESftpInit]
    /\ rdirs w' = rdirs w /\ rfiles w' = rfiles w /\ lfiles w' = lfiles w.
Proof.
  rewrite make_sftp_run. eexists. split; [reflexivity|].
  cbn [trace rdirs rfiles lfiles log]. unfold settled.
  rewrite trace_ready, rdirs_ready, rfiles_ready.
  repeat split; try reflexivity.
  generalize (blocks w). intros bs. revert w.
  induction bs as [|[|] bs IH]; intros w; cbn [ready]; [reflexivity|rewrite IH|]; reflexivity.
Qed.

End LoopFacts.

(** ** SFTP transfer: what the handles, put and get do *)

Module HandleFacts.

Import PumpFacts AuthFacts MkdirFacts TransferFacts.

(** The call the loop of [_sftp_openfh] repeats, and its test. *)
Definition open_call (open_func : M (option handle)) : M (option handle * Z) :=
  fh <- open_func ;; errno <- last_errno ;; ret (fh, errno).

Definition open_again (r : option handle * Z) : bool :=
  let '(fh, errno) := r in
  match fh with
  | None => errno =? LIBSSH2_ERROR_EAGAIN
  | Some _ => false
  end.

(** What the completed open hands to the loop. *)
Definition with_errno (c : result (option handle) * world)
  : result (option handle * Z) * world :=
  match c with
  | (Ok fh, w') => (Ok (fh, errno w'), w')
  | (Raise e, w') => (Raise e, w')
  end.

(** An open that, when it completes without a handle, leaves an error
    number other than the would-block code. *)
Definition fails_definitively (complete : world -> result (option handle) * world) : Prop :=
  forall w w', complete w = (Ok None, w') -> errno w' <> LIBSSH2_ERROR_EAGAIN.

Lemma open_done (complete : world -> result (option handle) * world)
  (call : M (option handle * Z)) (fuel : nat) (w : world) :
  fails_definitively complete ->
  match with_errno (complete w) with
  | (Ok r, w') => retry_while fuel open_again call r w'
  | (Raise e, w') => Some (Raise e, w')
  end = Some (with_errno (complete w)).
Proof.
  intros Hd. destruct (complete w) as [[[h|]|e] w'] eqn:Hc; cbn [with_errno]; try reflexivity.
  - destruct fuel; reflexivity.
  - apply Hd in Hc. apply Z.eqb_neq in Hc.
    destruct fuel; cbn [retry_while open_again]; rewrite Hc; reflexivity.
Qed.

Lemma open_call_run (ev : event) (complete : world -> result (option handle) * world)
  (w : world) :
  open_call (engine_call None ev complete) w
  = match blocks w with
    | true :: bs =>
        Some (Ok (None, LIBSSH2_ERROR_EAGAIN),
              set_errno LIBSSH2_ERROR_EAGAIN (set_blocks bs w))
    | false :: bs => Some (with_errno (complete (log ev (set_blocks bs w))))
    | [] => Some (with_errno (complete (log ev w)))
    end.
Proof.
  unfold open_call, bind, last_errno, ret, engine_call.
  destruct (blocks w) as [|[|] bs]; try reflexivity.
  - destruct (complete (log ev w)) as [[fh|e] w']; reflexivity.
  - destruct (complete (log ev (set_blocks bs w))) as [[fh|e] w']; reflexivity.
Qed.

Lemma open_loop (ev : event) (complete : world -> result (option handle) * world) :
  fails_definitively complete ->
  forall (bs : list bool) (w : world) (fuel : nat),
    blocks w = bs -> (List.length bs < fuel)%nat ->
    retry_while fuel open_again (open_call (engine_call None ev complete))
      (None, LIBSSH2_ERROR_EAGAIN) w
    = Some (with_errno (complete (log ev (ready bs w)))).
Proof.
  intros Hd. induction bs as [|[|] bs IH]; intros w fuel Hb Hf;
    (destruct fuel as [|fuel]; [simpl in Hf; lia|]);
    cbn [retry_while open_again]; rewrite Z.eqb_refl;
    unfold bind at 1, wait_select, ret at 1; unfold bind at 1;
    rewrite open_call_run, Hb; cbn [ready].
  - apply (@open_done complete _ fuel (log ev w) Hd).
  - apply IH; [reflexivity|simpl in Hf; lia].
  - apply (@open_done complete _ fuel (log ev (set_blocks bs w)) Hd).
Qed.

(** What [_sftp_openfh] makes of an open of the engine. *)
Definition surfaced (remote_file : string) (c : result (option handle) * world)
  : result (option handle) * world :=
  match c with
  | (Ok fh, w') =>
      if errno w' =? LIBSSH2_ERROR_EAGAIN then (Ok fh, w')
      else (Raise (open_failed remote_file (errno w')), w')
  | (Raise e, w') => (Raise e, w')
  end.

Lemma openfh_run (ev : event) (complete : world -> result (option handle) * world)
  (remote_file : string) (w : world) :
  fails_definitively complete ->
  _sftp_openfh (engine_call None ev complete) remote_file w
  = Some (surfaced remote_file (complete (log ev (settled w)))).
Proof.
  intros Hd. unfold _sftp_openfh.
  change (fh <- engine_call None ev complete;; errno <- last_errno;; ret (fh, errno))
    with (open_call (engine_call None ev complete)).
  change (fun '(fh, errno) => match fh with
                              | Some _ => false
                              | None => errno =? LIBSSH2_ERROR_EAGAIN
                              end) with open_again.
  unfold bind at 1. rewrite open_call_run. unfold settled.
  destruct (blocks w) as [|[|] bs] eqn:Hb; cbn [ready].
  - destruct (complete (log ev w)) as [[[h|]|e] w'] eqn:Hc; cbn [with_errno surfaced];
      try reflexivity.
    + unfold bind, patience. cbn [retry_while open_again]. unfold ret, raise.
      destruct (errno w' =? LIBSSH2_ERROR_EAGAIN); reflexivity.
    + pose proof (Hd _ _ Hc) as Hne. apply Z.eqb_neq in Hne.
      unfold bind, patience. cbn [retry_while open_again]. rewrite Hne.
      unfold ret, raise. rewrite Hne. reflexivity.
  - unfold bind at 1. unfold patience. cbn [blocks set_errno set_blocks].
    rewrite (@open_loop ev complete Hd bs (set_errno LIBSSH2_ERROR_EAGAIN (set_blocks bs w))
               (S (List.length bs)) eq_refl (Nat.lt_succ_diag_r _)).
    destruct (complete _) as [[fh|e] w'] eqn:Hc; cbn [with_errno surfaced]; try reflexivity.
    unfold ret, raise. destruct (errno w' =? LIBSSH2_ERROR_EAGAIN); reflexivity.
  - destruct (complete (log ev (set_blocks bs w))) as [[[h|]|e] w'] eqn:Hc;
      cbn [with_errno surfaced]; try reflexivity.
    + unfold bind, patience. cbn [retry_while open_again]. unfold ret, raise.
      destruct (errno w' =? LIBSSH2_ERROR_EAGAIN); reflexivity.
    + pose proof (Hd _ _ Hc) as Hne. apply Z.eqb_neq in Hne.
      unfold bind, patience. cbn [retry_while open_again]. rewrite Hne.
      unfold ret, raise. rewrite Hne. reflexivity.
Qed.


(** The open of the scripted engine fails definitively. *)
Ltac open_definitive :=
  let w0 := fresh "w" in let w' := fresh "w" in let H := fresh "H" in
  intros w0 w' H; cbv beta zeta in H;
  repeat match type of H with
         | (if ?c then _ else _) = _ => destruct c
         end; try discriminate; injection H as <-; simpl; discriminate.

Lemma lookup_store (k : string) (v : bytes) (l : list (string * bytes)) :
  lookup k (store k v l) = Some v.
Proof.
  induction l as [|[k' v'] l IH]; simpl.
  - rewrite String.eqb_refl. reflexivity.
  - destruct (String.eqb k k') eqn:Ek; simpl; [rewrite String.eqb_refl|rewrite Ek]; auto.
Qed.


Lemma lfiles_settled (w : world) : lfiles (settled w) = lfiles w.
Proof.
  unfold settled. generalize (blocks w). intros bs. revert w.
  induction bs as [|[|] bs IH]; intros w; cbn [ready]; [reflexivity|rewrite IH|]; reflexivity.
Qed.



(** *** Put, then get *)

Lemma blocked_then_free (k : nat) (w : world) :
  blocks w = repeat true (S k) ->
  blocks (settled w) = [] /\ errno (settled w) = LIBSSH2_ERROR_EAGAIN.
Proof.
  unfold settled. intros ->. revert w.
  induction k as [|k IH]; intros w; [split; reflexivity|].
  change (repeat true (S (S k))) with (true :: repeat true (S k)).
  cbn [ready]. apply IH.
Qed.












(** X5: [sftp_put] opens the remote file before the local one.  When the
    local file cannot be opened the remote file has already been created,
    or emptied if it existed: [put] raises the local error and leaves an
    empty remote file. *)
Theorem put_of_missing_local_empties_remote (E : mock) (sftp : value)
  (local_file remote_file : string) (k : nat) (w : world) :
  blocks w = repeat true (S k) ->
  lookup local_file (lfiles w) = None ->
  is_dir w (dirname (resolve E remote_file)) = true ->
  mem (resolve E remote_file) (rdirs w) = false ->
  exists w',
    sftp_put E sftp local_file remote_file w = Some (Raise (IOError local_file), w')
    /\ lookup (resolve E remote_file) (rfiles w') = Some [].
Proof.
  intros Hb Hl Hdir Hnd. destruct (@blocked_then_free k w Hb) as [Hfree Herr].
  unfold sftp_put, try_except. unfold bind at 1. unfold sftp_open.
  rewrite openfh_run by open_definitive.
  cbv beta zeta.
  change (Z.land _ LIBSSH2_FXF_CREAT =? 0) with false.
  change (Z.land _ LIBSSH2_FXF_TRUNC =? 0) with false. cbn [negb].
  unfold is_dir in *. cbn [rdirs log]. rewrite rdirs_settled, Hdir, Hnd. cbn [negb andb].
  cbn [surfaced errno set_rfiles log]. rewrite Herr, Z.eqb_refl.
  unfold bind at 1. unfold entered, ret at 1. unfold bind at 1.
  unfold local_open_rb. cbn [lfiles set_rfiles log]. rewrite lfiles_settled, Hl.
  eexists. split; [reflexivity|]. cbn [rfiles set_rfiles]. apply lookup_store.
Qed.

Lemma put_of_missing_local_witness :
  exists w',
    sftp_put fallback_engine VSftp "nothing" "b.txt" (uploader (repeat true 1))
    = Some (Raise (IOError "nothing"), w')
    /\ lookup (resolve fallback_engine "b.txt") (rfiles w') = Some [].
Proof.
  apply (@put_of_missing_local_empties_remote fallback_engine VSftp "nothing" "b.txt" 0
           (uploader (repeat true 1))); reflexivity.
Defined.

(** *** Directories handed to [copy_file] *)

Definition sftp_calls (sftp : option value) : list event :=
  match sftp with None => [ESftpInit] | Some _ => [] end.

Lemma sftp_object (sftp : option value) (w : world) :
  exists s,
    match sftp with None => _make_sftp | Some s => ret s end w
    = Some (Ok s, match sftp with None => log ESftpInit (settled w) | Some _ => w end).
Proof.
  destruct sftp as [s|].
  - exists s. reflexivity.
  - exists VSftp. apply LoopFacts.make_sftp_run.
Qed.

(** X6: [copy_file] refuses a local directory when [recurse] is not set:
    it raises [ValueError] and touches nothing on the remote side. *)
Theorem copy_of_directory_needs_recurse (E : mock) (self : SSHClient) (depth : nat)
  (local_file remote_file : string) (sftp : option value) (w : world) :
  local_isdir E local_file = true ->
  exists w',
    copy_file E self depth local_file remote_file false sftp w
    = Some (Raise (ValueError "Recurse must be true if local_file is a directory."), w')
    /\ trace w' = trace w ++ sftp_calls sftp
    /\ rdirs w' = rdirs w /\ rfiles w' = rfiles w.
Proof.
  intros Hd. destruct (sftp_object sftp w) as [s Hs].
  assert (Hrun : copy_file E self depth local_file remote_file false sftp w
                 = Some (Raise (ValueError "Recurse must be true if local_file is a directory."),
                         match sftp with None => log ESftpInit (settled w) | Some _ => w end)).
  { destruct depth; cbn [copy_file]; unfold bind; rewrite Hs, Hd; reflexivity. }
  rewrite Hrun. eexists. split; [reflexivity|].
  destruct sftp; cbn [sftp_calls trace rdirs rfiles log].
  - rewrite app_nil_r. repeat split; reflexivity.
  - rewrite trace_settled, rdirs_settled, rfiles_settled. repeat split; reflexivity.
Qed.

(** A local host on which "site" is a directory, and an empty one. *)
Definition empty_site : mock :=
  {| connect_result := connect_result fallback_engine;
     handshake_result := handshake_result fallback_engine;
     agent_result := agent_result fallback_engine;
     key_result := key_result fallback_engine;
     password_result := password_result fallback_engine;
     home := home fallback_engine;
     isfile := isfile fallback_engine;
     local_isdir := fun p => String.eqb p "site";
     local_listdir := fun _ => [];
     remote_cwd := remote_cwd fallback_engine;
     mkdir_denied := mkdir_denied fallback_engine;
     chunk_size := chunk_size fallback_engine |}.

Lemma copy_of_directory_needs_recurse_witness :
  exists w',
    copy_file empty_site fallback_client 0 "site" "www" false None fresh
    = Some (Raise (ValueError "Recurse must be true if local_file is a directory."), w')
    /\ trace w' = trace fresh ++ [ESftpInit]
    /\ rdirs w' = rdirs fresh /\ rfiles w' = rfiles fresh.
Proof.
  apply (@copy_of_directory_needs_recurse empty_site fallback_client 0 "site" "www" None
           fresh eq_refl).
Defined.

(** X7: [copy_file] of an empty local directory with [recurse] set returns
    without any call on the remote file system: the remote directory is not
    created. *)
Theorem copy_of_empty_directory_creates_nothing (E : mock) (self : SSHClient)
  (depth : nat) (local_file remote_file : string) (sftp : option value) (w : world) :
  local_isdir E local_file = true ->
  local_listdir E local_file = [] ->
  exists w',
    copy_file E self (S depth) local_file remote_file true sftp w = Some (Ok tt, w')
    /\ trace w' = trace w ++ sftp_calls sftp
    /\ rdirs w' = rdirs w /\ rfiles w' = rfiles w.
Proof.
  intros Hd Hl. destruct (sftp_object sftp w) as [s Hs].
  cbn [copy_file]. unfold bind. rewrite Hs, Hd. cbn [andb].
  unfold _copy_dir. rewrite Hl. cbn [for_each]. unfold ret.
  eexists. split; [reflexivity|].
  destruct sftp; cbn [sftp_calls trace rdirs rfiles log].
  - rewrite app_nil_r. repeat split; reflexivity.
  - rewrite trace_settled, rdirs_settled, rfiles_settled. repeat split; reflexivity.
Qed.

Lemma copy_of_empty_directory_witness :
  exists w',
    copy_file empty_site fallback_client 1 "site" "www" true None fresh = Some (Ok tt, w')
    /\ trace w' = trace fresh ++ [ESftpInit]
    /\ rdirs w' = rdirs fresh /\ rfiles w' = rfiles fresh.
Proof.
  apply (@copy_of_empty_directory_creates_nothing empty_site fallback_client 0 "site" "www"
           None fresh eq_refl eq_refl).
Defined.

End HandleFacts.

(** ** Session set-up: connect, handshake, agent *)

Module SetupFacts.

Import PumpFacts AuthFacts ConnectFacts.

(** The calls of [k] refused attempts, each followed by the pause. *)
Fixpoint refused (self : SSHClient) (k : nat) : list event :=
  match k with
  | O => []
  | S k' => EConnect (host self) (port self) :: ESleep 5 :: refused self k'
  end.

Lemma connect_trace (E : mock) (self : SSHClient) (k : nat) :
  forall (retries : Z) (w : world),
    (forall i, (i < k)%nat -> connect_result E (connects w + i) <> None) ->
    connect_result E (connects w + k) = None ->
    retries + Z.of_nat k <= num_retries self ->
    exists w', _connect E self retries w = Some (Ok tt, w')
               /\ trace w' = trace w ++ refused self k ++ [EConnect (host self) (port self)].
Proof.
  induction k as [|k IH]; intros retries w Hfail Hok Hle.
  - rewrite Nat.add_0_r in Hok. rewrite (@connect_succeeds E self retries w Hok).
    eexists. split; reflexivity.
  - destruct (connect_result E (connects w)) as [args|] eqn:H0.
    2:{ exfalso. apply (Hfail O); [lia|]. rewrite Nat.add_0_r. exact H0. }
    rewrite (@connect_retries E self retries w args H0) by lia.
    destruct (IH (retries + 1) (sleep 5 (attempt self w))) as [w' [H1 H2]].
    + intros i Hi. rewrite connects_sleep, connects_attempt.
      replace (S (connects w) + i)%nat with (connects w + S i)%nat by lia.
      apply Hfail. lia.
    + rewrite connects_sleep, connects_attempt.
      replace (S (connects w) + k)%nat with (connects w + S k)%nat by lia. exact Hok.
    + lia.
    + exists w'. split; [exact H1|]. rewrite H2. cbn [trace sleep attempt log refused].
      rewrite <- !app_assoc. reflexivity.
Qed.

(** X8: between two connect attempts [_connect] pauses 5 seconds, and it
    does not pause after the attempt that connects: after [k] refused
    attempts and one that connects the calls made are [k] times connect and
    sleep(5), then one connect. *)
Theorem connect_pauses_between_attempts (E : mock) (self : SSHClient) (w : world) (k : nat) :
  (forall i, (i < k)%nat -> connect_result E (connects w + i) <> None) ->
  connect_result E (connects w + k) = None ->
  Z.of_nat k < num_retries self ->
  exists w', _connect E self 1 w = Some (Ok tt, w')
             /\ trace w' = trace w ++ refused self k ++ [EConnect (host self) (port self)].
Proof. intros Hfail Hok Hk. apply connect_trace; [exact Hfail|exact Hok|lia]. Qed.

Lemma connect_pauses_between_attempts_witness :
  exists w', _connect flaky (patient 3) 1 fresh = Some (Ok tt, w')
             /\ trace w' = [EConnect "server" 22; ESleep 5; EConnect "server" 22; ESleep 5;
                            EConnect "server" 22].
Proof.
  apply (@connect_pauses_between_attempts flaky (patient 3) fresh 2).
  - intros [|[|i]] Hi; simpl; [discriminate|discriminate|lia].
  - reflexivity.
  - simpl. lia.
Defined.

(** X9: with [num_retries] 1, 0 or negative a refused connect is not
    retried: one attempt is made, without a pause, and the exception
    records attempt 1 of [num_retries]. *)
Theorem connect_without_retries (E : mock) (self : SSHClient) (w : world)
  (args : list atom) (t : atom) :
  num_retries self <= 1 ->
  connect_result E (connects w) = Some args ->
  error_type args = Some t ->
  _connect E self 1 w
  = Some (Raise (ConnectionErrorException connect_msg (host self) (port self) (str t)
                   1 (num_retries self)),
          log (EConnect (host self) (port self)) w).
Proof.
  intros Hn Hc Ht. rewrite (@connect_gives_up E self 1 w args Hc) by lia.
  unfold gives_up. rewrite Ht. reflexivity.
Qed.

Lemma connect_without_retries_witness :
  _connect flaky (patient 0) 1 fresh
  = Some (Raise (ConnectionErrorException connect_msg "server" 22 "Connection refused" 1 0),
          log (EConnect "server" 22) fresh).
Proof.
  apply (@connect_without_retries flaky (patient 0) fresh
           [AInt 111; AStr "Connection refused"] (AStr "Connection refused"));
    [simpl; lia|reflexivity|reflexivity].
Defined.

(** X10: when the handshake raises, [_init] attempts no authentication: a
    [SessionHandshakeError] is raised as [SessionError] with host and port,
    any other exception as it is. *)
Theorem init_stops_at_failed_handshake (E : mock) (self : SSHClient) (w : world) (e : exn) :
  handshake_result E = Raises e ->
  _init E self w
  = Some (Raise (match e with
                 | SessionHandshakeError =>
                     SessionError "Error connecting to host %s:%s - %s"
                       (host self) (port self) SessionHandshakeError
                 | _ => e
                 end), log EHandshake w).
Proof.
  intros Hh. unfold _init, bind, try_except, handshake. rewrite Hh. cbn [answer].
  destruct e; reflexivity.
Qed.

Definition deaf_engine (e : exn) : mock :=
  {| connect_result := connect_result fallback_engine;
     handshake_result := Raises e;
     agent_result := agent_result fallback_engine;
     key_result := key_result fallback_engine;
     password_result := password_result fallback_engine;
     home := home fallback_engine;
     isfile := isfile fallback_engine;
     local_isdir := local_isdir fallback_engine;
     local_listdir := local_listdir fallback_engine;
     remote_cwd := remote_cwd fallback_engine;
     mkdir_denied := mkdir_denied fallback_engine;
     chunk_size := chunk_size fallback_engine |}.

Lemma init_stops_at_failed_handshake_witness :
  _init (deaf_engine SessionHandshakeError) fallback_client fresh
  = Some (Raise (SessionError "Error connecting to host %s:%s - %s" "server" 22
                   SessionHandshakeError), log EHandshake fresh).
Proof.
  apply (@init_stops_at_failed_handshake (deaf_engine SessionHandshakeError)
           fallback_client fresh SessionHandshakeError eq_refl).
Defined.

(** X11: an exception of the agent call that is neither
    [AuthenticationError] nor [AgentError] ends the chain: [auth] raises it
    and attempts neither an identity file nor the password. *)
Theorem agent_crash_ends_chain (E : mock) (self : SSHClient) (w : world) (e : exn) :
  pkey self = None ->
  allow_agent self = true ->
  agent_result E = Raises e ->
  e <> AuthenticationError ->
  e <> AgentError ->
  auth E self w = Some (Raise e, log (EAgentAuth (user self)) w).
Proof.
  intros Hk Ha Hr H1 H2. unfold auth, agent_auth. rewrite Hk, Ha, Hr. cbn [answer].
  destruct e; try reflexivity; contradiction.
Qed.

Definition crashing_agent : mock :=
  {| connect_result := connect_result fallback_engine;
     handshake_result := handshake_result fallback_engine;
     agent_result := Raises (OtherError "MemoryError");
     key_result := key_result fallback_engine;
     password_result := password_result fallback_engine;
     home := home fallback_engine;
     isfile := isfile fallback_engine;
     local_isdir := local_isdir fallback_engine;
     local_listdir := local_listdir fallback_engine;
     remote_cwd := remote_cwd fallback_engine;
     mkdir_denied := mkdir_denied fallback_engine;
     chunk_size := chunk_size fallback_engine |}.

Lemma agent_crash_ends_chain_witness :
  auth crashing_agent fallback_client fresh
  = Some (Raise (OtherError "MemoryError"), log (EAgentAuth "u") fresh).
Proof.
  apply (@agent_crash_ends_chain crashing_agent fallback_client fresh
           (OtherError "MemoryError") eq_refl eq_refl eq_refl); discriminate.
Defined.

(** X12: [execute] on a channel it is given opens no session: it requests
    the pty when asked to, executes the command, and returns that channel,
    whatever the schedule of would-blocks. *)
Theorem execute_on_given_channel (channel : value) (cmd : string) (use_pty : bool)
  (w : world) :
  exists w',
    execute cmd use_pty (Some channel) w = Some (Ok channel, w')
    /\ trace w' = trace w ++ (if use_pty then [EPty] else []) ++ [EExecute cmd].
Proof.
  unfold execute, bind, ret, channel_execute, channel_pty.
  destruct use_pty.
  - rewrite eagain_engine_call by (apply CommandFacts.definitive_rc; discriminate).
    rewrite eagain_engine_call by (apply CommandFacts.definitive_rc; discriminate).
    eexists. split; [reflexivity|].
    repeat first [rewrite trace_settled | progress cbn [trace log]].
    rewrite <- !app_assoc. reflexivity.
  - rewrite eagain_engine_call by (apply CommandFacts.definitive_rc; discriminate).
    eexists. split; [reflexivity|].
    repeat first [rewrite trace_settled | progress cbn [trace log]].
    reflexivity.
Qed.

End SetupFacts.

(** ** Remote paths and the directories made for them *)

Module PathFacts.

Import PumpFacts AuthFacts MkdirFacts.

(** A path component: no separator in it. *)
Fixpoint no_slash (s : string) : bool :=
  match s with
  | EmptyString => true
  | String c s' => negb (Ascii.eqb c "/") && no_slash s'
  end.

(** A name: a component that is not empty. *)
Definition is_name (s : string) : bool := truthy s && no_slash s.



Lemma join_cons (x y : string) (l : list string) :
  join (x :: y :: l) = (x ++ "/" ++ join (y :: l))%string.
Proof. reflexivity. Qed.

Lemma join_String (c : ascii) (h : string) (t : list string) :
  join (String c h :: t) = String c (join (h :: t)).
Proof. destruct t; reflexivity. Qed.


Lemma split_no_slash (s : string) : no_slash s = true -> split s = [s].
Proof.
  induction s as [|c s IH]; [reflexivity|]. cbn [no_slash split]. intros H.
  apply andb_true_iff in H as [Hc Hs]. apply negb_true_iff in Hc. rewrite Hc, (IH Hs).
  reflexivity.
Qed.

Lemma split_component (x r : string) :
  no_slash x = true -> split (x ++ "/" ++ r) = x :: split r.
Proof.
  induction x as [|c x IH]; intros H.
  - reflexivity.
  - cbn [no_slash] in H. apply andb_true_iff in H as [Hc Hx]. apply negb_true_iff in Hc.
    cbn [append split]. rewrite Hc. change (x ++ String "/" r)%string with (x ++ "/" ++ r)%string.
    rewrite (IH Hx). reflexivity.
Qed.

Lemma split_join (parts : list string) :
  parts <> [] -> forallb no_slash parts = true -> split (join parts) = parts.
Proof.
  induction parts as [|x [|y l] IH]; intros Hne H.
  - contradiction.
  - cbn [forallb] in H. apply andb_true_iff in H as [Hx _]. apply split_no_slash. exact Hx.
  - cbn [forallb] in H. apply andb_true_iff in H as [Hx Hl].
    rewrite join_cons, split_component by exact Hx.
    rewrite IH; [reflexivity|discriminate|exact Hl].
Qed.

Lemma split_components (s : string) : forallb no_slash (split s) = true.
Proof.
  induction s as [|c s IH]; [reflexivity|]. cbn [split].
  destruct (Ascii.eqb c "/") eqn:Ec; [exact IH|].
  destruct (split s) as [|h t]; cbn [forallb no_slash] in *; rewrite Ec; [reflexivity|exact IH].
Qed.

Lemma filter_names (parts : list string) :
  forallb is_name parts = true -> filter truthy parts = parts.
Proof.
  induction parts as [|x l IH]; [reflexivity|]. cbn [forallb filter]. intros H.
  apply andb_true_iff in H as [Hx Hl]. unfold is_name in Hx.
  apply andb_true_iff in Hx as [Hx _]. rewrite Hx, (IH Hl). reflexivity.
Qed.

Lemma names_no_slash (parts : list string) :
  forallb is_name parts = true -> forallb no_slash parts = true.
Proof.
  induction parts as [|x l IH]; [reflexivity|]. cbn [forallb]. intros H.
  apply andb_true_iff in H as [Hx Hl]. unfold is_name in Hx.
  apply andb_true_iff in Hx as [_ Hx]. rewrite Hx, (IH Hl). reflexivity.
Qed.

(** [l[:-1]] of a list with a last element. *)
Lemma slice_but_last {A} (l : list A) (x : A) : slice (l ++ [x]) 0 (-1) = l.
Proof.
  unfold slice, clip, len. rewrite length_app. cbn [List.length].
  change (0 <? 0) with false. change (-1 <? 0) with true. cbv iota.
  replace (Z.max 0 (-1 + Z.of_nat (List.length l + 1))) with (Z.of_nat (List.length l)) by lia.
  replace (Z.min 0 (Z.of_nat (List.length l + 1))) with 0 by lia.
  rewrite Z.sub_0_r, Nat2Z.id. cbn [Z.to_nat skipn].
  rewrite firstn_app, firstn_all, Nat.sub_diag. cbn [firstn]. apply app_nil_r.
Qed.

(** X13: for a destination made of names, [_remote_paths_split] returns the
    parent path, the names before the last joined by the separator; for
    the same path made absolute by a leading separator it returns the same
    relative parent, the root dropped. *)
Theorem remote_parent_of_named_path (dirs : list string) (file : string) :
  forallb is_name (dirs ++ [file]) = true ->
  _remote_paths_split (join (dirs ++ [file])) = join dirs
  /\ _remote_paths_split ("/" ++ join (dirs ++ [file])) = join dirs.
Proof.
  intros H. unfold _remote_paths_split.
  assert (Hs : split (join (dirs ++ [file])) = dirs ++ [file]).
  { apply split_join; [destruct dirs; discriminate|apply names_no_slash; exact H]. }
  split.
  - rewrite Hs, filter_names by exact H. rewrite slice_but_last. reflexivity.
  - change ("/" ++ join (dirs ++ [file]))%string with (String "/" (join (dirs ++ [file]))).
    cbn [split]. change (Ascii.eqb "/" "/") with true. cbv iota.
    rewrite Hs. cbn [filter truthy]. rewrite filter_names by exact H.
    rewrite slice_but_last. reflexivity.
Qed.

Lemma remote_parent_of_named_path_witness :
  _remote_paths_split (join (["srv"%string; "www"%string] ++ ["index.html"%string]))
  = join ["srv"%string; "www"%string]
  /\ _remote_paths_split ("/" ++ join (["srv"%string; "www"%string] ++ ["index.html"%string]))
     = join ["srv"%string; "www"%string].
Proof.
  apply (@remote_parent_of_named_path ["srv"%string; "www"%string] "index.html" eq_refl).
Defined.

Lemma In_slice_list {A} (x : A) (l : list A) lo hi : In x (slice l lo hi) -> In x l.
Proof.
  unfold slice. intros H. apply (@DemuxFacts.In_firstn A) in H.
  apply (@DemuxFacts.In_skipn A) in H. exact H.
Qed.

Lemma join_relative (l : list string) :
  (forall x, In x l -> is_name x = true) -> is_absolute (join l) = false.
Proof.
  destruct l as [|x l]; intros H; [reflexivity|].
  assert (Hx : is_name x = true) by (apply H; left; reflexivity).
  unfold is_name in Hx. apply andb_true_iff in Hx as [Ht Hn].
  destruct x as [|c x]; [discriminate|].
  cbn [no_slash] in Hn. apply andb_true_iff in Hn as [Hc _]. apply negb_true_iff in Hc.
  rewrite join_String. cbn [is_absolute]. exact Hc.
Qed.

(** X14: whatever the destination, the parent [_remote_paths_split] returns
    is never an absolute path. *)
Theorem remote_parent_never_absolute (file_path : string) :
  is_absolute (_remote_paths_split file_path) = false.
Proof.
  unfold _remote_paths_split. apply join_relative. intros x Hx.
  apply In_slice_list in Hx. apply filter_In in Hx as [Hin Ht].
  unfold is_name. rewrite Ht. cbn [andb].
  pose proof (split_components file_path) as Hall.
  rewrite forallb_forall in Hall. apply Hall. exact Hin.
Qed.


(** *** What the mkdir chain leaves behind *)




Section Outcome.

Variable E : mock.
Variable self : SSHClient.

Lemma same_files (w w' : world) (p : string) :
  rdirs w' = rdirs w -> rfiles w' = rfiles w -> remote_exists E w' p = remote_exists E w p.
Proof. unfold remote_exists, is_file. intros -> ->. reflexivity. Qed.

Lemma create_missing_keeps (segs : list string) :
  forall w r w',
    create_missing E self segs w = (r, w') ->
    rfiles w' = rfiles w
    /\ lfiles w' = lfiles w
    /\ (forall q, mem q (rdirs w) = true -> mem q (rdirs w') = true).
Proof.
  induction segs as [|s rest IH]; intros w r w' H.
  - injection H as <- <-. repeat split; auto.
  - cbn [create_missing] in H. cbv zeta in H.
    destruct (remote_exists E (log (EStat s) (settled w)) s).
    + destruct (IH _ _ _ H) as [Hf [Hl Hd]]. cbn [rfiles lfiles rdirs log] in *.
      rewrite rfiles_settled in Hf. rewrite HandleFacts.lfiles_settled in Hl.
      rewrite rdirs_settled in Hd. repeat split; assumption.
    + destruct (can_mkdir E _ s).
      * destruct (IH _ _ _ H) as [Hf [Hl Hd]].
        cbn [rfiles lfiles rdirs log set_rdirs set_errno] in *.
        rewrite rfiles_settled in Hf. rewrite HandleFacts.lfiles_settled in Hl.
        rewrite rdirs_settled in Hd.
        cbn [rfiles lfiles rdirs log set_rdirs set_errno] in *.
        rewrite rfiles_settled in Hf. rewrite HandleFacts.lfiles_settled in Hl.
        rewrite rdirs_settled in Hd.
        split; [exact Hf|]. split; [exact Hl|].
        intros q Hq. apply Hd. apply mem_app_l. exact Hq.
      * injection H as <- <-. cbn [rfiles lfiles rdirs log set_rdirs set_errno].
        rewrite rfiles_settled, HandleFacts.lfiles_settled, rdirs_settled.
        cbn [rfiles lfiles rdirs log set_rdirs set_errno].
        rewrite rfiles_settled, HandleFacts.lfiles_settled, rdirs_settled.
        repeat split; auto.
Qed.

Lemma create_missing_refused (segs : list string) :
  forall w e w',
    create_missing E self segs w = (Raise e, w') ->
    exists s calls,
      In s segs
      /\ e = mkdir_failed self s
      /\ trace w' = trace w ++ calls ++ [EMkdir s dir_mode]
      /\ remote_exists E w' s = false.
Proof.
  induction segs as [|s rest IH]; intros w e w' H.
  - discriminate.
  - cbn [create_missing] in H. cbv zeta in H.
    destruct (remote_exists E (log (EStat s) (settled w)) s) eqn:Hex.
    + destruct (IH _ _ _ H) as [s' [calls [Hin [He [Ht Hm]]]]].
      exists s', (EStat s :: calls). split; [right; exact Hin|]. split; [exact He|].
      split; [|exact Hm]. rewrite Ht. cbn [trace log]. rewrite trace_settled, <- app_assoc.
      reflexivity.
    + destruct (can_mkdir E _ s) eqn:Hcan.
      * destruct (IH _ _ _ H) as [s' [calls [Hin [He [Ht Hm]]]]].
        exists s', (EStat s :: EMkdir s dir_mode :: calls).
        split; [right; exact Hin|]. split; [exact He|]. split; [|exact Hm].
        rewrite Ht. cbn [trace log set_rdirs set_errno]. rewrite trace_settled.
        cbn [trace log set_rdirs set_errno]. rewrite trace_settled, <- !app_assoc.
        reflexivity.
      * injection H as <- <-. exists s, [EStat s].
        split; [left; reflexivity|]. split; [reflexivity|]. split.
        -- cbn [trace log set_errno]. rewrite trace_settled. cbn [trace log set_errno].
           rewrite trace_settled, <- !app_assoc. reflexivity.
        -- rewrite <- Hex. apply same_files.
           ++ cbn [rdirs log set_errno]. rewrite rdirs_settled. reflexivity.
           ++ cbn [rfiles log set_errno]. rewrite rfiles_settled. reflexivity.
Qed.

End Outcome.



(** X16: the mkdir chain removes nothing, whether it returns or raises:
    every remote directory that existed still exists, and the remote and
    the local files are as they were. *)
Theorem mkdir_removes_nothing (E : mock) (self : SSHClient) (sftp : value)
  (directory : string) (parent_path : option string) (w w' : world) (r : result unit) :
  mkdir E self sftp directory parent_path w = Some (r, w') ->
  rfiles w' = rfiles w
  /\ lfiles w' = lfiles w
  /\ (forall q, mem q (rdirs w) = true -> mem q (rdirs w') = true).
Proof.
  intros H. rewrite (@mkdir_refines E self (String.length directory)) in H by lia.
  injection H as H. exact (@create_missing_keeps E self _ _ _ _ H).
Qed.

(** A server that refuses to create "/home/u/x/y". *)
Definition strict_server : mock :=
  {| connect_result := connect_result fallback_engine;
     handshake_result := handshake_result fallback_engine;
     agent_result := agent_result fallback_engine;
     key_result := key_result fallback_engine;
     password_result := password_result fallback_engine;
     home := home fallback_engine;
     isfile := isfile fallback_engine;
     local_isdir := local_isdir fallback_engine;
     local_listdir := local_listdir fallback_engine;
     remote_cwd := remote_cwd fallback_engine;
     mkdir_denied := fun q => String.eqb q "/home/u/x/y";
     chunk_size := chunk_size fallback_engine |}.

Lemma mkdir_removes_nothing_witness :
  exists r w',
    mkdir strict_server fallback_client VSftp "x/y/z" None fresh = Some (r, w')
    /\ rfiles w' = rfiles fresh
    /\ lfiles w' = lfiles fresh
    /\ (forall q, mem q (rdirs fresh) = true -> mem q (rdirs w') = true).
Proof.
  eexists. eexists. split; [vm_compute; reflexivity|].
  eapply (@mkdir_removes_nothing strict_server fallback_client VSftp "x/y/z" None fresh).
  vm_compute. reflexivity.
Defined.

(** X17: the mkdir chain raises only for a creation the server refuses:
    the exception is [SFTPIOError] with the refused segment and the host,
    the refused creation is the last call made, and the segment is still
    missing; no later segment is probed or created. *)
Theorem mkdir_raises_for_refused_segment (E : mock) (self : SSHClient) (sftp : value)
  (directory : string) (parent_path : option string) (w w' : world) (e : exn) :
  mkdir E self sftp directory parent_path w = Some (Raise e, w') ->
  exists s calls,
    In s (segments directory parent_path)
    /\ e = mkdir_failed self s
    /\ trace w' = trace w ++ calls ++ [EMkdir s dir_mode]
    /\ remote_exists E w' s = false.
Proof.
  intros H. rewrite (@mkdir_refines E self (String.length directory)) in H by lia.
  injection H as H. exact (@create_missing_refused E self _ _ _ _ H).
Qed.

Lemma mkdir_raises_for_refused_segment_witness :
  exists w' s calls,
    mkdir strict_server fallback_client VSftp "x/y/z" None fresh
    = Some (Raise (mkdir_failed fallback_client "x/y"), w')
    /\ In s (segments "x/y/z" None)
    /\ mkdir_failed fallback_client "x/y" = mkdir_failed fallback_client s
    /\ trace w' = trace fresh ++ calls ++ [EMkdir s dir_mode]
    /\ remote_exists strict_server w' s = false.
Proof.
  eexists.
  assert (Hrun : mkdir strict_server fallback_client VSftp "x/y/z" None fresh
                 = Some (Raise (mkdir_failed fallback_client "x/y"),
                         snd (create_missing strict_server fallback_client
                                (segments "x/y/z" None) fresh)))
    by (vm_compute; reflexivity).
  destruct (@mkdir_raises_for_refused_segment strict_server fallback_client VSftp
              "x/y/z" None fresh _ _ Hrun) as [s [calls H]].
  exists s, calls. split; [exact Hrun|exact H].
Defined.

End PathFacts.

(** ** More on the output demultiplexer *)

Module LineFacts.

Import Demux DemuxFacts.

Lemma read_loop_nonpositive (LINESEP : bytes) (rs : reads) (z : Z) (d remainder : bytes) :
  z <= 0 -> read_loop LINESEP rs z d remainder = [].
Proof.
  intros Hz. destruct rs as [|[? ?] ?]; cbn [read_loop];
    rewrite (proj2 (Z.ltb_ge 0 z)) by lia; reflexivity.
Qed.

(** X18: after the first read, a read that returns a size that is not
    positive, be it end of stream, an error code or would-block, ends the
    output: what the channel would return after it is never read. *)
Theorem output_ends_at_nonpositive_read (LINESEP : bytes) (s0 : Z) (d0 : bytes)
  (cs : reads) (z : Z) (d : bytes) (rest : reads) :
  s0 <> LIBSSH2_ERROR_EAGAIN ->
  z <= 0 ->
  _read_output LINESEP ((s0, d0) :: cs ++ (z, d) :: rest)
  = _read_output LINESEP ((s0, d0) :: cs).
Proof.
  intros Hs Hz. unfold _read_output. cbn [first_read].
  apply Z.eqb_neq in Hs. rewrite Hs.
  generalize (@nil byte). revert s0 d0 Hs.
  induction cs as [|[s1 d1] cs IH]; intros s0 d0 Hs rem.
  - cbn [app read_loop]. destruct (0 <? s0); [|reflexivity].
    destruct (scan LINESEP s0 d0 0 rem) as [ys r].
    rewrite read_loop_nonpositive by exact Hz. apply app_nil_r.
  - cbn [app read_loop]. destruct (0 <? s0); [|reflexivity].
    destruct (scan LINESEP s0 d0 0 rem) as [ys r]. f_equal.
    destruct (s1 =? LIBSSH2_ERROR_EAGAIN) eqn:E1.
    + apply Z.eqb_eq in E1. subst s1.
      rewrite !read_loop_nonpositive by (unfold LIBSSH2_ERROR_EAGAIN; lia). reflexivity.
    + apply IH. exact E1.
Qed.

Lemma output_ends_at_nonpositive_read_witness :
  _read_output nl ((2, b "a" ++ nl) :: [(2, b "b" ++ nl)] ++ (-43, []) :: [(2, b "c" ++ nl)])
  = _read_output nl ((2, b "a" ++ nl) :: [(2, b "b" ++ nl)]).
Proof.
  apply (@output_ends_at_nonpositive_read nl 2 (b "a" ++ nl) [(2, b "b" ++ nl)] (-43) []
           [(2, b "c" ++ nl)]); [discriminate|lia].
Defined.

(** *** Chunks that start with the separator *)

(** A chunk, of the size of its data, whose first byte is the separator. *)
Definition starts_with_sep (c : Z * bytes) : Prop :=
  fst c = len (snd c) /\ exists rest, snd c = x0a :: rest.

Lemma find_at_head (rest : bytes) (i : Z) : find_at (x0a :: rest) nl i = i.
Proof. reflexivity. Qed.

Lemma scan_starts_with_sep (rest remainder : bytes) :
  fst (scan nl (len (x0a :: rest)) (x0a :: rest) 0 remainder) = [].
Proof.
  rewrite scan_unfold. rewrite slice_to_all. cbv zeta.
  assert (Hf : find (x0a :: rest) nl 0 = 0).
  { unfold find. pose proof (len_nonneg (x0a :: rest)).
    rewrite (proj2 (Z.ltb_ge _ _)) by lia. rewrite clip_inside by lia. reflexivity. }
  rewrite Hf. change (0 <? 0) with false. destruct (0 <? len (x0a :: rest)); reflexivity.
Qed.

Lemma read_loop_starts_with_sep (rs : reads) :
  Forall starts_with_sep rs ->
  forall (rest remainder : bytes),
    read_loop nl rs (len (x0a :: rest)) (x0a :: rest) remainder = [].
Proof.
  induction rs as [|[s d] rs IH]; intros Hrs rest remainder; cbn [read_loop];
    destruct (0 <? len (x0a :: rest)); try reflexivity;
    pose proof (scan_starts_with_sep rest remainder) as Hs;
    destruct (scan nl (len (x0a :: rest)) (x0a :: rest) 0 remainder) as [ys r];
    cbn [fst] in Hs; subst ys.
  - reflexivity.
  - inversion Hrs as [|? ? [Hsz [rest' Hd]] Hrest]; subst. cbn [fst snd] in *. subst.
    cbn [app]. apply IH. exact Hrest.
Qed.

(** X19: the scan takes a separator at index 0 of a chunk for no separator
    ([linesep > 0]): a chunk that starts with the separator yields nothing,
    whatever lines follow in it, and a stream of such chunks yields
    nothing at all. *)
Theorem chunks_starting_with_separator_yield_nothing (rs : reads) :
  Forall starts_with_sep rs -> _read_output nl rs = [].
Proof.
  intros Hrs. unfold _read_output. destruct rs as [|[s d] rs]; [reflexivity|].
  inversion Hrs as [|? ? [Hsz [rest Hd]] Hrest]; subst. cbn [fst snd] in *. subst.
  cbn [first_read]. pose proof (len_nonneg (x0a :: rest)).
  rewrite (proj2 (Z.eqb_neq _ LIBSSH2_ERROR_EAGAIN)) by (unfold LIBSSH2_ERROR_EAGAIN; lia).
  apply read_loop_starts_with_sep. exact Hrest.
Qed.

Lemma chunks_starting_with_separator_witness :
  _read_output nl [(7, nl ++ b "hello" ++ nl); (7, nl ++ b "world" ++ nl)] = [].
Proof.
  apply chunks_starting_with_separator_yield_nothing.
  repeat constructor; eexists; reflexivity.
Defined.

(** *** Chunks made of whole lines *)

(** The chunk that holds the given lines, each ended by the separator. *)
Definition chunk_of (lines : list bytes) : Z * bytes :=
  let data := List.concat (map (fun l => l ++ nl) lines) in (len data, data).

(** Lines that make a chunk the scan reads line by line: at least one,
    the first not empty, none with a separator inside. *)
Definition whole_lines (lines : list bytes) : Prop :=
  match lines with
  | [] => False
  | l :: _ => l <> []
  end /\ Forall (fun l => ~ In x0a l) lines.

Lemma find_at_line (l post : bytes) (i : Z) :
  ~ In x0a l -> find_at (l ++ x0a :: post) nl i = i + len l.
Proof.
  revert i. induction l as [|c l IH]; intros i Hl.
  - simpl app. rewrite find_at_head. unfold len. simpl. lia.
  - simpl app. cbn [find_at].
    replace (startswith (c :: l ++ x0a :: post) nl) with false.
    + rewrite IH by (intros Hin; apply Hl; right; exact Hin).
      unfold len. cbn [List.length]. lia.
    + simpl. destruct (Byte.eqb x0a c) eqn:Ec; [|reflexivity].
      apply Byte.byte_dec_bl in Ec. subst c. exfalso. apply Hl. left. reflexivity.
Qed.

Lemma skipn_len_app {A} (pre post : list A) : skipn (Z.to_nat (len pre)) (pre ++ post) = post.
Proof.
  unfold len. rewrite Nat2Z.id, skipn_app, skipn_all, Nat.sub_diag. reflexivity.
Qed.

Lemma find_line (pre l post : bytes) :
  ~ In x0a l -> find (pre ++ l ++ x0a :: post) nl (len pre) = len pre + len l.
Proof.
  intros Hl. unfold find. pose proof (len_nonneg pre). pose proof (len_nonneg (l ++ x0a :: post)).
  rewrite len_app. rewrite (proj2 (Z.ltb_ge _ _)) by lia.
  rewrite clip_inside by lia. rewrite skipn_len_app. apply find_at_line. exact Hl.
Qed.

Lemma slice_line (pre l post : bytes) :
  slice (pre ++ l ++ post) (len pre) (len pre + len l) = l.
Proof.
  unfold slice. pose proof (len_nonneg pre). pose proof (len_nonneg l).
  pose proof (len_nonneg post). rewrite !len_app.
  rewrite !clip_inside by lia. rewrite skipn_len_app.
  replace (Z.to_nat (len pre + len l - len pre)) with (List.length l) by (unfold len; lia).
  rewrite firstn_app, firstn_all, Nat.sub_diag. cbn [firstn]. apply app_nil_r.
Qed.

Lemma scan_whole_lines (lines : list bytes) :
  Forall (fun l => ~ In x0a l) lines ->
  forall pre : bytes,
    (pre <> [] \/ match lines with [] => True | l :: _ => l <> [] end) ->
    scan nl (len (pre ++ List.concat (map (fun l => l ++ nl) lines)))
      (pre ++ List.concat (map (fun l => l ++ nl) lines)) (len pre) []
    = (map strip lines, []).
Proof.
  induction lines as [|l ls IH]; intros Hall pre Hpre.
  - cbn [map List.concat]. rewrite app_nil_r, scan_unfold, Z.ltb_irrefl. reflexivity.
  - inversion Hall as [|? ? Hl Hls]; subst.
    cbn [map List.concat]. rewrite scan_unfold, slice_to_all. cbv zeta.
    set (post := List.concat (map (fun l0 => l0 ++ nl) ls)) in *.
    replace ((l ++ nl) ++ post) with (l ++ x0a :: post) by (rewrite <- app_assoc; reflexivity).
    rewrite find_line by exact Hl.
    pose proof (len_nonneg pre) as Hp0. pose proof (len_nonneg l) as Hl0.
    pose proof (len_nonneg post) as Hq0.
    assert (Hlen : len (pre ++ l ++ x0a :: post) = len pre + len l + 1 + len post).
    { rewrite !len_app. unfold len. cbn [List.length]. lia. }
    rewrite Hlen. rewrite (proj2 (Z.ltb_lt (len pre) _)) by lia.
    assert (Hpos : 0 < len pre + len l).
    { destruct Hpre as [Hne|Hne].
      - destruct pre; [contradiction|]. unfold len in *. cbn [List.length] in *. lia.
      - destruct l; [contradiction|]. unfold len in *. cbn [List.length] in *. lia. }
    rewrite (proj2 (Z.ltb_lt 0 _) Hpos). change (0 <? len (@nil byte)) with false. cbv iota.
    rewrite slice_line.
    specialize (IH Hls (pre ++ l ++ nl)).
    replace ((pre ++ l ++ nl) ++ post) with (pre ++ l ++ x0a :: post) in IH
      by (rewrite <- !app_assoc; reflexivity).
    replace (len (pre ++ l ++ nl)) with (len pre + len l + 1) in IH
      by (rewrite !len_app; unfold len, nl, posix_linesep; cbn [List.length]; lia).
    rewrite Hlen in IH. rewrite IH; [reflexivity|].
    left. intros Hnil. apply (f_equal (@List.length byte)) in Hnil.
    rewrite !length_app in Hnil. unfold nl, posix_linesep in Hnil. cbn [List.length] in Hnil. lia.
Qed.

Lemma chunk_of_scan (lines : list bytes) :
  whole_lines lines ->
  0 < fst (chunk_of lines)
  /\ scan nl (fst (chunk_of lines)) (snd (chunk_of lines)) 0 [] = (map strip lines, []).
Proof.
  intros [Hhd Hall]. unfold chunk_of. cbn [fst snd]. split.
  - destruct lines as [|l ls]; [contradiction|]. cbn [map List.concat].
    rewrite !len_app. pose proof (len_nonneg l).
    pose proof (len_nonneg (List.concat (map (fun l0 => l0 ++ nl) ls))).
    change (len nl) with 1. lia.
  - apply (@scan_whole_lines lines Hall []). right. destruct lines; [exact I|exact Hhd].
Qed.

Lemma read_loop_whole_lines (chunks : list (list bytes)) :
  Forall whole_lines chunks ->
  forall lines : list bytes,
    whole_lines lines ->
    read_loop nl (map chunk_of chunks) (fst (chunk_of lines)) (snd (chunk_of lines)) []
    = map strip (lines ++ List.concat chunks).
Proof.
  induction chunks as [|c cs IH]; intros Hcs lines Hl;
    destruct (chunk_of_scan Hl) as [Hpos Hscan];
    cbn [map read_loop]; rewrite (proj2 (Z.ltb_lt _ _) Hpos), Hscan.
  - cbn [List.concat]. rewrite app_nil_r. reflexivity.
  - inversion Hcs as [|? ? Hc Hrest]; subst.
    destruct (chunk_of c) as [s d] eqn:Hcd.
    change s with (fst (s, d)). change d with (snd (s, d)) at 2. rewrite <- Hcd.
    rewrite (IH Hrest c Hc). cbn [List.concat]. rewrite !map_app. reflexivity.
Qed.

(** X20: when every chunk the channel returns is made of whole lines, each
    ended by the separator, none empty at the start of its chunk, the
    output is exactly those lines, in order, each once, stripped of the
    white space around it. *)
Theorem whole_line_chunks_yield_their_lines (chunks : list (list bytes)) :
  Forall whole_lines chunks ->
  _read_output nl (map chunk_of chunks) = map strip (List.concat chunks).
Proof.
  intros Hcs. unfold _read_output. destruct chunks as [|c cs]; [reflexivity|].
  inversion Hcs as [|? ? Hc Hrest]; subst.
  cbn [map first_read]. destruct (chunk_of c) as [s d] eqn:Hcd.
  assert (Hs : 0 < s) by (destruct (chunk_of_scan Hc) as [Hp _]; rewrite Hcd in Hp; exact Hp).
  rewrite (proj2 (Z.eqb_neq s LIBSSH2_ERROR_EAGAIN)) by (unfold LIBSSH2_ERROR_EAGAIN; lia).
  change s with (fst (s, d)). change d with (snd (s, d)) at 2. rewrite <- Hcd.
  apply read_loop_whole_lines; assumption.
Qed.

Lemma whole_line_chunks_witness :
  _read_output nl (map chunk_of [[b "total 8"; b " a.txt "; []]; [b "b.txt"]])
  = map strip (List.concat [[b "total 8"; b " a.txt "; []]; [b "b.txt"]]).
Proof.
  apply whole_line_chunks_yield_their_lines.
  repeat constructor; simpl; intuition discriminate.
Defined.

End LineFacts.

(** ** Channel closer: [SSHClient.wait_finished] *)

Module Closer.

(** The methods of a channel that [wait_finished] calls. *)
Record Channel := {
  wait_eof : M value;
  close : M value;
  wait_closed : M value
}.

Definition wait_finished (channel : option Channel) : M unit :=
  match channel with
  | None => ret tt
  | Some channel =>
      _eagain (wait_eof channel) ;;
      _eagain (close channel) ;;
      _eagain (wait_closed channel) ;;
      ret tt
  end.

End Closer.

Module CloserFacts.

Import PumpFacts AuthFacts Closer.

(** A channel of the engine: each method is an engine call, recorded as
    the given event, that completes with the given answer. *)
Definition engine_channel (eof closed acked : event * outcome) : Channel :=
  {| wait_eof := engine_call EAGAIN (fst eof) (answer (snd eof));
     close := engine_call EAGAIN (fst closed) (answer (snd closed));
     wait_closed := engine_call EAGAIN (fst acked) (answer (snd acked)) |}.

(** The calls made until one raises, and how the sequence ends. *)
Fixpoint until_raise (calls : list (event * outcome)) : list event * result unit :=
  match calls with
  | [] => ([], Ok tt)
  | (ev, Returns _) :: rest => let '(evs, r) := until_raise rest in (ev :: evs, r)
  | (ev, Raises e) :: _ => ([ev], Raise e)
  end.

(** X21: [wait_finished] does nothing without a channel.  With one it
    waits for end of file, closes, and waits for the close to be
    acknowledged, in this order, each through the pump, so that would-blocks
    change nothing; a step that raises ends it, and the later steps are not
    made. *)
Theorem wait_finished_in_order (eof closed acked : event * outcome) (w : world) :
  settles (snd eof) = true ->
  settles (snd closed) = true ->
  settles (snd acked) = true ->
  wait_finished None w = Some (Ok tt, w)
  /\ exists w',
       wait_finished (Some (engine_channel eof closed acked)) w
       = Some (snd (until_raise [eof; closed; acked]), w')
       /\ trace w' = trace w ++ fst (until_raise [eof; closed; acked]).
Proof.
  intros H1 H2 H3. split; [reflexivity|].
  destruct eof as [e1 o1], closed as [e2 o2], acked as [e3 o3]. cbn [fst snd] in *.
  unfold wait_finished, engine_channel. cbn [wait_eof close wait_closed fst snd].
  unfold bind at 1. rewrite eagain_engine_call by (apply definitive_answer; exact H1).
  destruct o1 as [v1|x1]; cbn [answer until_raise].
  2:{ eexists. split; [reflexivity|]. cbn [trace log fst]. rewrite trace_settled. reflexivity. }
  unfold bind at 1. rewrite eagain_engine_call by (apply definitive_answer; exact H2).
  destruct o2 as [v2|x2]; cbn [answer until_raise].
  2:{ eexists. split; [reflexivity|]. cbn [trace log fst].
      rewrite !trace_settled. cbn [trace log]. rewrite trace_settled, <- app_assoc. reflexivity. }
  unfold bind at 1. rewrite eagain_engine_call by (apply definitive_answer; exact H3).
  destruct o3 as [v3|x3]; cbn [answer until_raise]; unfold ret;
    (eexists; split; [reflexivity|]); cbn [trace log fst];
    repeat first [rewrite trace_settled | progress cbn [trace log]];
    rewrite <- !app_assoc; reflexivity.
Qed.

Lemma wait_finished_in_order_witness :
  wait_finished None (set_blocks [true; false; true] fresh)
  = Some (Ok tt, set_blocks [true; false; true] fresh)
  /\ exists w',
       wait_finished
         (Some (engine_channel (EStat "eof", Returns (VInt 0))
                  (EStat "close", Raises (OtherError "SocketDisconnectError"))
                  (EStat "closed", Returns (VInt 0))))
         (set_blocks [true; false; true] fresh)
       = Some (Raise (OtherError "SocketDisconnectError"), w')
       /\ trace w' = [EStat "eof"; EStat "close"].
Proof.
  apply (@wait_finished_in_order (EStat "eof", Returns (VInt 0))
           (EStat "close", Raises (OtherError "SocketDisconnectError"))
           (EStat "closed", Returns (VInt 0)) (set_blocks [true; false; true] fresh));
    reflexivity.
Defined.

End CloserFacts.
